(** * jsl.fields: schema compilation and traversal of field trees

    A shallow embedding of [jsl/fields.py].  Python values that end up in a
    compiled schema are the inductive [pyval]; the dictionaries that carry
    definitions between calls are objects with an identity, so they live in
    a store and are passed by address; exceptions are an error result. *)

From Stdlib Require Import Ascii.
From stdpp Require Import gmap strings list fin_maps.

Set Warnings "-register-all".

(** ** Python values *)

Inductive pyval :=
| PNone
| PBool (b : bool)
| PInt (z : Z)
| PStr (s : string)
| PList (l : list pyval)
| PDict (m : gmap string pyval).

Definition is_none (v : pyval) : bool :=
  match v with PNone => true | _ => false end.

(** An attribute that is either a plain value or a zero-argument callable
    ([callable(x)] in the source).  A callable is represented by the value
    it returns: one that raises, or that returns something else on each
    call, has no counterpart here, and statements that need the attributes
    not to be callables say so ([producer_free]). *)
Inductive attr (A : Type) :=
| Plain (a : A)
| Callable (f : unit -> A).
Arguments Plain {A} a.
Arguments Callable {A} f.

(** ** Exceptions and the store of definition dictionaries *)

Inductive error :=
| ValueError (msg : string)
| KeyError (key : string)
| OtherError (msg : string).

Inductive res (A : Type) :=
| Ok (a : A)
| Raise (e : error).
Arguments Ok {A} a.
Arguments Raise {A} e.

(** Addresses of dictionaries are positives; the store maps an address to
    the dictionary's current contents. *)
Abbreviation addr := positive.
Abbreviation dict := (gmap string pyval).
Abbreviation store := (gmap positive (gmap string pyval)).

Definition M (A : Type) : Type := store -> res A * store.

#[global] Instance M_ret : MRet M := fun A a h => (Ok a, h).

#[global] Instance M_bind : MBind M := fun A B k m h =>
  match m h with
  | (Ok a, h') => k a h'
  | (Raise e, h') => (Raise e, h')
  end.

Definition raise {A} (e : error) : M A := fun h => (Raise e, h).

Definition lift {A} (r : res A) : M A := fun h => (r, h).

(** [{}]: a new, empty dictionary. *)
Definition new_dict : M addr :=
  fun h => let l := fresh (dom h) in (Ok l, <[l := ∅]> h).

(** The contents of the dictionary at [l]. *)
Definition contents (h : store) (l : addr) : dict := default ∅ (h !! l).

Definition read (l : addr) : M dict := fun h => (Ok (contents h l), h).

(** [target.update(source)]: the entries of [source] are written into
    [target], replacing entries with the same key. *)
Definition dict_update (target source : addr) : M unit :=
  fun h => (Ok tt, <[target := contents h source ∪ contents h target]> h).

(** [target[key] = value]. *)
Definition dict_setitem (target : addr) (key : string) (value : pyval) : M unit :=
  fun h => (Ok tt, <[target := <[key := value]> (contents h target)]> h).

(** [frames d m c Q]: run from a store in which the dictionary at [d] holds
    [m], the computation [c] ends, normally or with an exception, in a store
    in which the dictionary at [d] still holds [m]; and a normal result
    satisfies [Q]. *)
Definition frames (d : addr) (m : dict) {A} (c : M A) (Q : A -> Prop) : Prop :=
  forall (h : store) (r : res A) (h' : store),
    h !! d = Some m ->
    c h = (r, h') ->
    h' !! d = Some m /\ forall a : A, r = Ok a -> Q a.

(** What a compile call must satisfy with regard to the mapping at [d]: the
    mapping is kept, and the delta that is returned is another dictionary. *)
Definition separate (d : addr) (m : dict) (c : M (addr * pyval)) : Prop :=
  frames d m c (fun p => p.1 <> d).

(** [grows P c Q]: run from a store that satisfies [P], the computation [c]
    ends, normally or with an exception, in a store that extends the one it
    started from (every dictionary that was there is still there with the
    same contents); and a normal result satisfies [Q] in the final store. *)
Definition grows {A} (P : store -> Prop) (c : M A) (Q : A -> store -> Prop)
  : Prop :=
  forall (h : store) (r : res A) (h' : store),
    P h ->
    c h = (r, h') ->
    h ⊆ h' /\ forall a : A, r = Ok a -> Q a h'.

(** A property of stores that survives extension. *)
Definition stable (P : store -> Prop) : Prop :=
  forall h h' : store, h ⊆ h' -> P h -> P h'.

(** What a compile call on a tree without references does to the store: it
    only adds dictionaries, and the delta it returns is empty. *)
Definition adds_empty (c : M (addr * pyval)) : Prop :=
  grows (fun _ => True) c (fun p h => h !! p.1 = Some ∅).

(** [succeeds c]: from every store, [c] returns normally. *)
Definition succeeds {A} (c : M A) : Prop :=
  forall h : store, exists (a : A) (h' : store), c h = (Ok a, h').

(** [agree proj c c']: whatever the stores they are run from, [c] and [c']
    either both return, with results that [proj] does not tell apart, or
    both raise the same exception. *)
Definition agree {A B} (proj : A -> B) (c c' : M A) : Prop :=
  forall h h' : store,
    match (c h).1, (c' h').1 with
    | Ok a, Ok a' => proj a = proj a'
    | Raise e, Raise e' => e = e'
    | _, _ => False
    end.

(** Truth value of a dictionary and of a string. *)
Definition dict_truthy (m : dict) : bool := negb (bool_decide (m = ∅)).

Definition str_truthy (s : string) : bool := match s with EmptyString => false | _ => true end.


(** ** The field classes

    The document type, its class methods and the registry module are
    collaborators of [fields.py] that live elsewhere in the package: they
    are parameters of the development. *)

Inductive string_class := StringField_ | EmailField | IPv4Type | DateTimeField | UriField.

Inductive number_class := NumberField_ | IntField.

Inductive of_class := OneOfField | AnyOfField | AllOfField.

(** Attributes of [BaseField.__init__]. *)
Record BaseField := mkBase {
  required : bool;
  title : option string;
  description : option string;
  _choices : attr (option (list pyval));
  _default : attr pyval
}.

(** [BaseField()] with every keyword argument left at its default. *)
Definition base_defaults : BaseField :=
  mkBase false None None (Plain None) (Plain PNone).

Definition RECURSIVE_REFERENCE_CONSTANT : string := "self".

Section Fields.

Context {Doc : Type} `{EqDecision Doc}.

(** A field object.  [properties] and [pattern_properties] are mappings
    whose iteration order ([iteritems], [itervalues], [iterkeys]) is the
    order of the list.  [items] is one field or a sequence of fields;
    [additional_items] and [additional_properties] are [None], a boolean
    or a field.  [_document_cls] is a name or a document. *)
Inductive field :=
| StringField (cls : string_class) (base : BaseField)
    (regex : option string) (min_length max_length : pyval)
| BooleanField (base : BaseField)
| NumberField (cls : number_class) (base : BaseField)
    (multiple_of minimum : pyval) (exclusive_minimum : bool)
    (maximum : pyval) (exclusive_maximum : bool)
| ArrayField (base : BaseField) (items : field + list field)
    (min_items max_items : pyval) (unique_items : bool)
    (additional_items : option (bool + field))
| DictField (base : BaseField)
    (properties pattern_properties : option (list (string * field)))
    (additional_properties : option (bool + field))
    (min_properties max_properties : pyval)
| DocumentField (base : BaseField) (_document_cls : string + Doc)
    (owner_cls : option Doc)
| OfField (cls : of_class) (base : BaseField) (fields : list field)
| NotField (base : BaseField) (f : field).

Definition field_base (f : field) : BaseField :=
  match f with
  | StringField _ b _ _ _ | BooleanField b | NumberField _ b _ _ _ _ _
  | ArrayField b _ _ _ _ _ | DictField b _ _ _ _ _ | DocumentField b _ _
  | OfField _ b _ | NotField b _ => b
  end.

(** *** Collaborators *)

(** [re.compile]: [None] when the pattern compiles, otherwise the text of
    the [sre_constants.error]. *)
Variable re_compile_error : string -> option string.

(** The registry's table behind [registry.get_document(name, module=None)]:
    [None] where the call raises [KeyError]. *)
Variable registered : string -> option string -> option Doc.

Definition registry_get_document (name : string) (module : option string)
  : res Doc :=
  match registered name module with
  | Some doc => Ok doc
  | None => Raise (KeyError name)
  end.

(** [cls.get_definition_id()], [cls.__module__],
    [cls.get_definitions_and_schema(definitions=...)] and
    [cls.walk(through_document_fields=..., visited_documents=...)]. *)
Variable get_definition_id : Doc -> string.
Variable module_of : Doc -> string.
Variable Document_get_definitions_and_schema :
  Doc -> option addr -> M (addr * pyval).
Variable Document_walk : Doc -> bool -> list Doc -> list field * option error.

(** *** Construction *)

Definition _validate_regex (regex : string) : res unit :=
  match re_compile_error regex with
  | None => Ok tt
  | Some e => Raise (ValueError ("Invalid regular expression: " ++ e))
  end.

Definition StringField_init (cls : string_class) (regex : option string)
    (min_length max_length : pyval) (base : BaseField) : res field :=
  match match regex with
        | Some r => _validate_regex r
        | None => Ok tt
        end with
  | Raise e => Raise e
  | Ok _ => Ok (StringField cls base regex min_length max_length)
  end.


Definition set_owner (f : field) (owner_cls : Doc) : field :=
  match f with
  | DocumentField b d _ => DocumentField b d (Some owner_cls)
  | _ => f
  end.

(** *** Common keywords *)

(** The properties [choices] and [default]: a callable is called on every
    read. *)
Definition choices (b : BaseField) : option (list pyval) :=
  match _choices b with
  | Callable f => f tt
  | Plain c => c
  end.

Definition default_ (b : BaseField) : pyval :=
  match _default b with
  | Callable f => f tt
  | Plain d => d
  end.

Definition default_is_not_none (b : BaseField) : bool :=
  match _default b with
  | Plain d => negb (is_none d)
  | Callable _ => true
  end.

Definition _get_common_schema_fields (b : BaseField) : dict :=
  let rv : dict := ∅ in
  let rv := match title b with Some t => <["title" := PStr t]> rv | None => rv end in
  let rv := match description b with
            | Some d => <["description" := PStr d]> rv
            | None => rv
            end in
  let rv := match choices b with
            | Some (c :: cs) => <["enum" := PList (c :: cs)]> rv
            | _ => rv
            end in
  let rv := if default_is_not_none b then <["default" := default_ b]> rv else rv in
  rv.

(** [schema.update(other)] on a dictionary that is local to the call. *)
Definition update (schema other : dict) : dict := other ∪ schema.

(** [schema[key] = value] when [value is not None]. *)
Definition set_if_not_none (key : string) (value : pyval) (schema : dict) : dict :=
  if is_none value then schema else <[key := value]> schema.

(** *** Resolution of a document reference: the [document_cls] property *)

Definition document_cls (_document_cls : string + Doc) (owner_cls : option Doc)
  : res Doc :=
  match _document_cls with
  | inl name =>
      if String.eqb name RECURSIVE_REFERENCE_CONSTANT then
        match owner_cls with
        | None => Raise (ValueError "owner_cls is not set")
        | Some owner => Ok owner
        end
      else
        match registry_get_document name None with
        | Raise (KeyError _) =>
            match owner_cls with
            | None => Raise (ValueError "owner_cls is not set")
            | Some owner => registry_get_document name (Some (module_of owner))
            end
        | r => r
        end
  | inr doc => Ok doc
  end.

(** *** Compilation: [get_definitions_and_schema] *)

Definition string_format (cls : string_class) : option string :=
  match cls with
  | StringField_ => None
  | EmailField => Some "email"
  | IPv4Type => Some "ipv4"
  | DateTimeField => Some "date-time"
  | UriField => Some "uri"
  end.

Definition _NUMBER_TYPE (cls : number_class) : string :=
  match cls with NumberField_ => "number" | IntField => "integer" end.

Definition _KEYWORD (cls : of_class) : string :=
  match cls with
  | OneOfField => "oneOf"
  | AnyOfField => "anyOf"
  | AllOfField => "allOf"
  end.

Definition string_schema (cls : string_class) (b : BaseField)
    (regex : option string) (min_length max_length : pyval) : dict :=
  let schema : dict := {["type" := PStr "string"]} in
  let schema := update schema (_get_common_schema_fields b) in
  let schema := match regex with
                | Some r => if str_truthy r then <["pattern" := PStr r]> schema
                            else schema
                | None => schema
                end in
  let schema := set_if_not_none "minLength" min_length schema in
  let schema := set_if_not_none "maxLength" max_length schema in
  match string_format cls with
  | Some fmt => <["format" := PStr fmt]> schema
  | None => schema
  end.

Definition boolean_schema (b : BaseField) : dict :=
  update {["type" := PStr "boolean"]} (_get_common_schema_fields b).

Definition number_schema (cls : number_class) (b : BaseField)
    (multiple_of minimum : pyval) (exclusive_minimum : bool)
    (maximum : pyval) (exclusive_maximum : bool) : dict :=
  let schema : dict := {["type" := PStr (_NUMBER_TYPE cls)]} in
  let schema := update schema (_get_common_schema_fields b) in
  let schema := set_if_not_none "multipleOf" multiple_of schema in
  let schema := set_if_not_none "minimum" minimum schema in
  let schema := if exclusive_minimum
                then <["exclusiveMinumum" := PBool true]> schema else schema in
  let schema := set_if_not_none "maximum" maximum schema in
  let schema := if exclusive_maximum
                then <["exclusiveMaximum" := PBool true]> schema else schema in
  schema.

Definition array_schema (b : BaseField) (nested_schema : pyval)
    (min_items max_items : pyval) (unique_items : bool) : dict :=
  let schema : dict := <["items" := nested_schema]> {["type" := PStr "array"]} in
  let schema := update schema (_get_common_schema_fields b) in
  let schema := set_if_not_none "minItems" min_items schema in
  let schema := set_if_not_none "maxItems" max_items schema in
  if unique_items then <["uniqueItems" := PBool true]> schema else schema.

Section Children.

(** The recursive call [child.get_definitions_and_schema(definitions=definitions)]
    on a child of the field being compiled. *)
Variable compile_child : field -> M (addr * pyval).

(** The loop over a sequence of fields, shared by [ArrayField] (sequence of
    items) and [OfField]: every fragment is appended, every delta is merged
    into [nested_definitions]. *)
Fixpoint compile_sequence (nested_definitions : addr) (l : list field)
  : M (list pyval) :=
  match l with
  | [] => mret []
  | item :: l' =>
      '(item_definitions, item_schema) ← compile_child item;
      dict_update nested_definitions item_definitions;;
      rest ← compile_sequence nested_definitions l';
      mret (item_schema :: rest)
  end.

(** The loop of [DictField._process_properties]. *)
Fixpoint process_loop (nested_definitions : addr) (schema : dict)
    (properties : list (string * field)) : M dict :=
  match properties with
  | [] => mret schema
  | (prop, f) :: rest =>
      '(field_definitions, field_schema) ← compile_child f;
      let schema := <[prop := field_schema]> schema in
      dict_update nested_definitions field_definitions;;
      process_loop nested_definitions schema rest
  end.

Definition _process_properties (properties : list (string * field))
  : M (addr * dict) :=
  nested_definitions ← new_dict;
  schema ← process_loop nested_definitions ∅ properties;
  mret (nested_definitions, schema).

(** [additional_items] / [additional_properties]: a boolean is written
    verbatim, a field is compiled and its delta merged. *)
Definition compile_additional (key : string) (nested_definitions : addr)
    (additional : option (bool + field)) (schema : dict) : M dict :=
  match additional with
  | None => mret schema
  | Some (inl b) => mret (<[key := PBool b]> schema)
  | Some (inr f) =>
      '(items_definitions, items_schema) ← compile_child f;
      let schema := <[key := items_schema]> schema in
      dict_update nested_definitions items_definitions;;
      mret schema
  end.

End Children.

Fixpoint validate_keys (keys : list string) : res unit :=
  match keys with
  | [] => Ok tt
  | key :: rest =>
      match _validate_regex key with
      | Raise e => Raise e
      | Ok _ => validate_keys rest
      end
  end.

Fixpoint get_definitions_and_schema (f : field) (definitions : option addr)
    {struct f} : M (addr * pyval) :=
  match f with
  | StringField cls b regex min_length max_length =>
      let schema := string_schema cls b regex min_length max_length in
      nd ← new_dict;
      mret (nd, PDict schema)
  | BooleanField b =>
      nd ← new_dict;
      mret (nd, PDict (boolean_schema b))
  | NumberField cls b multiple_of minimum exclusive_minimum maximum
      exclusive_maximum =>
      let schema := number_schema cls b multiple_of minimum exclusive_minimum
                      maximum exclusive_maximum in
      nd ← new_dict;
      mret (nd, PDict schema)
  | ArrayField b items min_items max_items unique_items additional_items =>
      '(nested_definitions, nested_schema) ←
        match items with
        | inr l =>
            nested_definitions ← new_dict;
            nested_schema ←
              compile_sequence
                (fun item => get_definitions_and_schema item definitions)
                nested_definitions l;
            mret (nested_definitions, PList nested_schema)
        | inl item => get_definitions_and_schema item definitions
        end;
      let schema := array_schema b nested_schema min_items max_items
                      unique_items in
      schema ←
        compile_additional
          (fun item => get_definitions_and_schema item definitions)
          "additionalItems" nested_definitions additional_items schema;
      mret (nested_definitions, PDict schema)
  | DictField b properties pattern_properties additional_properties
      min_properties max_properties =>
      nested_definitions ← new_dict;
      let schema : dict := {["type" := PStr "object"]} in
      let schema := update schema (_get_common_schema_fields b) in
      schema ←
        match properties with
        | Some props =>
            '(properties_definitions, properties_schema) ←
              _process_properties
                (fun item => get_definitions_and_schema item definitions) props;
            let schema := <["properties" := PDict properties_schema]> schema in
            dict_update nested_definitions properties_definitions;;
            mret schema
        | None => mret schema
        end;
      schema ←
        match pattern_properties with
        | Some props =>
            lift (validate_keys (props.*1));;
            '(properties_definitions, properties_schema) ←
              _process_properties
                (fun item => get_definitions_and_schema item definitions) props;
            let schema :=
              <["patternProperties" := PDict properties_schema]> schema in
            dict_update nested_definitions properties_definitions;;
            mret schema
        | None => mret schema
        end;
      schema ←
        compile_additional
          (fun item => get_definitions_and_schema item definitions)
          "additionalProperties" nested_definitions additional_properties
          schema;
      let schema := set_if_not_none "minProperties" min_properties schema in
      let schema := set_if_not_none "maxProperties" max_properties schema in
      mret (nested_definitions, PDict schema)
  | DocumentField b _document_cls owner_cls =>
      doc ← lift (document_cls _document_cls owner_cls);
      let definition_id := get_definition_id doc in
      let compile_document :=
        Document_get_definitions_and_schema doc definitions in
      match definitions with
      | Some d =>
          m ← read d;
          if dict_truthy m then
            match m !! definition_id with
            | Some fragment => nd ← new_dict; mret (nd, fragment)
            | None => compile_document
            end
          else compile_document
      | None => compile_document
      end
  | OfField cls b fields =>
      nested_definitions ← new_dict;
      one_of ←
        compile_sequence
          (fun item => get_definitions_and_schema item definitions)
          nested_definitions fields;
      let schema : dict := {[_KEYWORD cls := PList one_of]} in
      let schema := update schema (_get_common_schema_fields b) in
      mret (nested_definitions, PDict schema)
  | NotField b f =>
      '(field_definitions, field_schema) ←
        get_definitions_and_schema f definitions;
      let schema : dict := {["not" := field_schema]} in
      let schema := update schema (_get_common_schema_fields b) in
      mret (field_definitions, PDict schema)
  end.

(** *** Traversal: [walk]

    A generator is modelled by what it yields, in order, together with the
    exception that ends it, if one does. *)

Definition yielded : Type := list field * option error.

Definition yield (f : field) : yielded := ([f], None).

(** Running one generator after another. *)
Definition chain (g1 g2 : yielded) : yielded :=
  match g1 with
  | (l1, Some e) => (l1, Some e)
  | (l1, None) => (l1 ++ g2.1, g2.2)
  end.

Section WalkChildren.

Variable walk_child : field -> yielded.

Fixpoint walk_fields (l : list field) : yielded :=
  match l with
  | [] => ([], None)
  | f :: l' => chain (walk_child f) (walk_fields l')
  end.

(** The loop over [mapping.itervalues()]. *)
Fixpoint walk_values (l : list (string * field)) : yielded :=
  match l with
  | [] => ([], None)
  | (_, f) :: l' => chain (walk_child f) (walk_values l')
  end.

End WalkChildren.

Fixpoint walk (f : field) (through_document_fields : bool)
    (visited_documents : list Doc) {struct f} : yielded :=
  let walk_child c := walk c through_document_fields visited_documents in
  match f with
  | ArrayField _ items _ _ _ _ =>
      chain (yield f)
        match items with
        | inr l => walk_fields walk_child l
        | inl item => walk_child item
        end
  | DictField _ properties pattern_properties additional_properties _ _ =>
      chain (yield f)
        (chain
           match properties with
           | Some props => walk_values walk_child props
           | None => ([], None)
           end
           (chain
              match pattern_properties with
              | Some props => walk_values walk_child props
              | None => ([], None)
              end
              match additional_properties with
              | Some (inr af) => walk_child af
              | _ => ([], None)
              end))
  | DocumentField _ _document_cls owner_cls =>
      chain (yield f)
        (if through_document_fields then
           match document_cls _document_cls owner_cls with
           | Raise e => ([], Some e)
           | Ok doc =>
               if bool_decide (doc ∈ visited_documents) then ([], None)
               else Document_walk doc through_document_fields
                      (visited_documents ++ [doc])
           end
         else ([], None))
  | OfField _ _ fields => chain (yield f) (walk_fields walk_child fields)
  | StringField _ _ _ _ _ | BooleanField _ | NumberField _ _ _ _ _ _ _
  | NotField _ _ => yield f
  end.

(** *** Induction over field trees *)

Section FieldInduction.

Variable P : field -> Prop.

Definition all_values (o : option (list (string * field))) : Prop :=
  match o with
  | Some props => Forall (fun p => P p.2) props
  | None => True
  end.

Definition additional_field (o : option (bool + field)) : Prop :=
  match o with
  | Some (inr f) => P f
  | _ => True
  end.

Hypothesis HString : forall cls b regex min_length max_length,
  P (StringField cls b regex min_length max_length).
Hypothesis HBoolean : forall b, P (BooleanField b).
Hypothesis HNumber : forall cls b mo mi emi ma ema,
  P (NumberField cls b mo mi emi ma ema).
Hypothesis HArray : forall b items min_items max_items unique_items additional,
  match items with
  | inl item => P item
  | inr l => Forall P l
  end ->
  additional_field additional ->
  P (ArrayField b items min_items max_items unique_items additional).
Hypothesis HDict : forall b properties pattern_properties additional mi ma,
  all_values properties ->
  all_values pattern_properties ->
  additional_field additional ->
  P (DictField b properties pattern_properties additional mi ma).
Hypothesis HDocument : forall b dc owner, P (DocumentField b dc owner).
Hypothesis HOf : forall cls b fields,
  Forall P fields -> P (OfField cls b fields).
Hypothesis HNot : forall b f, P f -> P (NotField b f).

Fixpoint field_tree_ind (f : field) : P f :=
  let on_list :=
    fix on_list (l : list field) : Forall P l :=
      match l with
      | [] => @List.Forall_nil _ P
      | x :: l' => @List.Forall_cons _ P x l' (field_tree_ind x) (on_list l')
      end in
  let on_values :=
    fix on_values (l : list (string * field)) : Forall (fun p => P p.2) l :=
      match l with
      | [] => @List.Forall_nil _ _
      | p :: l' => @List.Forall_cons _ (fun p => P p.2) p l' (field_tree_ind p.2)
            (on_values l')
      end in
  let on_mapping (o : option (list (string * field))) : all_values o :=
    match o with
    | Some props => on_values props
    | None => I
    end in
  let on_additional (o : option (bool + field)) : additional_field o :=
    match o with
    | Some (inr af) => field_tree_ind af
    | Some (inl _) => I
    | None => I
    end in
  match f with
  | StringField cls b regex mi ma => HString cls b regex mi ma
  | BooleanField b => HBoolean b
  | NumberField cls b mo mi emi ma ema => HNumber cls b mo mi emi ma ema
  | ArrayField b items mi ma u additional =>
      HArray b items mi ma u additional
        match items with
        | inl item => field_tree_ind item
        | inr l => on_list l
        end
        (on_additional additional)
  | DictField b properties pattern_properties additional mi ma =>
      HDict b properties pattern_properties additional mi ma
        (on_mapping properties) (on_mapping pattern_properties)
        (on_additional additional)
  | DocumentField b dc owner => HDocument b dc owner
  | OfField cls b fields => HOf cls b fields (on_list fields)
  | NotField b f' => HNot b f' (field_tree_ind f')
  end.

End FieldInduction.

(** *** Notions used by the statements *)

(** The node with its [required] attribute replaced. *)
Definition with_required (r : bool) (f : field) : field :=
  let set b := mkBase r (title b) (description b) (_choices b) (_default b) in
  match f with
  | StringField c b x y z => StringField c (set b) x y z
  | BooleanField b => BooleanField (set b)
  | NumberField c b x y z v w => NumberField c (set b) x y z v w
  | ArrayField b x y z v w => ArrayField (set b) x y z v w
  | DictField b x y z v w => DictField (set b) x y z v w
  | DocumentField b x y => DocumentField (set b) x y
  | OfField c b x => OfField c (set b) x
  | NotField b x => NotField (set b) x
  end.

Definition is_document_reference (f : field) : bool :=
  match f with DocumentField _ _ _ => true | _ => false end.

(** String, boolean and number fields of every flavour. *)
Definition is_primitive (f : field) : bool :=
  match f with
  | StringField _ _ _ _ _ | BooleanField _ | NumberField _ _ _ _ _ _ _ => true
  | _ => false
  end.

(** The error raised when the owner is needed and not set. *)
Definition binding_error : error := ValueError "owner_cls is not set".

(** The resolution algorithm in the words of the specification: a direct
    handle is used as it is; the self-reference token needs the owner; a
    name is looked up unqualified, then qualified by the owner's module. *)
Inductive resolution : string + Doc -> option Doc -> res Doc -> Prop :=
| resolve_handle doc owner :
    resolution (inr doc) owner (Ok doc)
| resolve_self_unbound :
    resolution (inl RECURSIVE_REFERENCE_CONSTANT) None (Raise binding_error)
| resolve_self owner :
    resolution (inl RECURSIVE_REFERENCE_CONSTANT) (Some owner) (Ok owner)
| resolve_unqualified name owner doc :
    name <> RECURSIVE_REFERENCE_CONSTANT ->
    registered name None = Some doc ->
    resolution (inl name) owner (Ok doc)
| resolve_retry_unbound name :
    name <> RECURSIVE_REFERENCE_CONSTANT ->
    registered name None = None ->
    resolution (inl name) None (Raise binding_error)
| resolve_qualified name owner doc :
    name <> RECURSIVE_REFERENCE_CONSTANT ->
    registered name None = None ->
    registered name (Some (module_of owner)) = Some doc ->
    resolution (inl name) (Some owner) (Ok doc)
| resolve_not_found name owner :
    name <> RECURSIVE_REFERENCE_CONSTANT ->
    registered name None = None ->
    registered name (Some (module_of owner)) = None ->
    resolution (inl name) (Some owner) (Raise (KeyError name)).

(** *** The root schema: [BaseField.get_schema] *)

(** [schema['definitions'] = definitions] is an item assignment on the
    fragment, which fails on a value that is not a dictionary. *)
Definition get_schema (f : field) : M pyval :=
  '(definitions, schema) ← get_definitions_and_schema f None;
  m ← read definitions;
  if dict_truthy m then
    match schema with
    | PDict s => mret (PDict (<["definitions" := PDict m]> s))
    | _ => raise (OtherError "TypeError: object does not support item assignment")
    end
  else mret schema.

(** *** Further notions used by the statements *)

(** No document reference anywhere in the tree. *)
Fixpoint document_free (f : field) : bool :=
  let in_additional (o : option (bool + field)) :=
    match o with
    | Some (inr af) => document_free af
    | _ => true
    end in
  let in_mapping (o : option (list (string * field))) :=
    match o with
    | Some props => forallb (fun p => document_free p.2) props
    | None => true
    end in
  match f with
  | DocumentField _ _ _ => false
  | ArrayField _ items _ _ _ additional =>
      match items with
      | inl item => document_free item
      | inr l => forallb document_free l
      end && in_additional additional
  | DictField _ properties pattern_properties additional _ _ =>
      in_mapping properties && in_mapping pattern_properties
      && in_additional additional
  | OfField _ _ fields => forallb document_free fields
  | NotField _ f' => document_free f'
  | StringField _ _ _ _ _ | BooleanField _ | NumberField _ _ _ _ _ _ _ => true
  end.

Definition valid_key (key : string) : bool :=
  match re_compile_error key with None => true | Some _ => false end.

(** Every key of every [pattern_properties] mapping in the tree is a regular
    expression that compiles. *)
Fixpoint patterns_valid (f : field) : bool :=
  let in_additional (o : option (bool + field)) :=
    match o with
    | Some (inr af) => patterns_valid af
    | _ => true
    end in
  let in_mapping (o : option (list (string * field))) :=
    match o with
    | Some props => forallb (fun p => patterns_valid p.2) props
    | None => true
    end in
  match f with
  | ArrayField _ items _ _ _ additional =>
      match items with
      | inl item => patterns_valid item
      | inr l => forallb patterns_valid l
      end && in_additional additional
  | DictField _ properties pattern_properties additional _ _ =>
      in_mapping properties
      && match pattern_properties with
         | Some props => forallb (fun p => valid_key p.1) props
         | None => true
         end
      && in_mapping pattern_properties
      && in_additional additional
  | OfField _ _ fields => forallb patterns_valid fields
  | NotField _ f' => patterns_valid f'
  | StringField _ _ _ _ _ | BooleanField _ | NumberField _ _ _ _ _ _ _
  | DocumentField _ _ _ => true
  end.

(** Neither [default] nor [choices] is a callable. *)
Definition plain_base (b : BaseField) : bool :=
  match _choices b, _default b with
  | Plain _, Plain _ => true
  | _, _ => false
  end.

(** No field of the tree has a callable [default] or [choices]. *)
Fixpoint producer_free (f : field) : bool :=
  let in_additional (o : option (bool + field)) :=
    match o with
    | Some (inr af) => producer_free af
    | _ => true
    end in
  let in_mapping (o : option (list (string * field))) :=
    match o with
    | Some props => forallb (fun p => producer_free p.2) props
    | None => true
    end in
  plain_base (field_base f)
  && match f with
     | ArrayField _ items _ _ _ additional =>
         match items with
         | inl item => producer_free item
         | inr l => forallb producer_free l
         end && in_additional additional
     | DictField _ properties pattern_properties additional _ _ =>
         in_mapping properties && in_mapping pattern_properties
         && in_additional additional
     | OfField _ _ fields => forallb producer_free fields
     | NotField _ f' => producer_free f'
     | StringField _ _ _ _ _ | BooleanField _ | NumberField _ _ _ _ _ _ _
     | DocumentField _ _ _ => true
     end.

(** The value of the [type] keyword that a class writes, if it writes one. *)
Definition type_keyword (f : field) : option string :=
  match f with
  | StringField _ _ _ _ _ => Some "string"
  | BooleanField _ => Some "boolean"
  | NumberField cls _ _ _ _ _ _ => Some (_NUMBER_TYPE cls)
  | ArrayField _ _ _ _ _ _ => Some "array"
  | DictField _ _ _ _ _ _ => Some "object"
  | DocumentField _ _ _ | OfField _ _ _ | NotField _ _ => None
  end.

(** What a caller gets from a compile call apart from the delta: the
    fragment, or the exception. *)
Definition outcome (r : res (addr * pyval) * store) : res pyval :=
  match r.1 with
  | Ok (_, schema) => Ok schema
  | Raise e => Raise e
  end.

(** How [additional_items] / [additional_properties] changes a fragment, and
    how a compiled mapping of properties does: used to describe the
    dictionary a container builds. *)
Definition additional_shape (key : string) (additional : option (bool + field))
    (schema schema' : dict) : Prop :=
  match additional with
  | None => schema' = schema
  | Some (inl b) => schema' = <[key := PBool b]> schema
  | Some (inr _) => exists v : pyval, schema' = <[key := v]> schema
  end.

Definition mapping_shape (key : string)
    (mapping : option (list (string * field))) (schema schema' : dict) : Prop :=
  match mapping with
  | None => schema' = schema
  | Some props =>
      exists m : dict,
        dom m = (list_to_set props.*1 : gset string)
        /\ schema' = <[key := PDict m]> schema
  end.

(** The dictionary that a field other than a document reference returns as
    its fragment, up to the fragments of its children. *)
Inductive own_fragment : field -> dict -> Prop :=
| own_string cls b regex min_length max_length :
    own_fragment (StringField cls b regex min_length max_length)
      (string_schema cls b regex min_length max_length)
| own_boolean b :
    own_fragment (BooleanField b) (boolean_schema b)
| own_number cls b mo mi emi ma ema :
    own_fragment (NumberField cls b mo mi emi ma ema)
      (number_schema cls b mo mi emi ma ema)
| own_array b items mi ma u additional nested schema :
    additional_shape "additionalItems" additional
      (array_schema b nested mi ma u) schema ->
    own_fragment (ArrayField b items mi ma u additional) schema
| own_dict b properties pattern_properties additional mi ma s1 s2 s3 :
    mapping_shape "properties" properties
      (update {["type" := PStr "object"]} (_get_common_schema_fields b)) s1 ->
    mapping_shape "patternProperties" pattern_properties s1 s2 ->
    additional_shape "additionalProperties" additional s2 s3 ->
    own_fragment (DictField b properties pattern_properties additional mi ma)
      (set_if_not_none "maxProperties" ma
         (set_if_not_none "minProperties" mi s3))
| own_of cls b fields one_of :
    length one_of = length fields ->
    own_fragment (OfField cls b fields)
      (update {[_KEYWORD cls := PList one_of]} (_get_common_schema_fields b))
| own_not b f field_schema :
    own_fragment (NotField b f)
      (update {["not" := field_schema]} (_get_common_schema_fields b)).

End Fields.

(** A fragment that is nothing but a reference: one key, [$ref], holding
    the target as a string. *)
Definition is_pointer (fragment : pyval) : Prop :=
  exists target : string, fragment = PDict {["$ref" := PStr target]}.

(** ** A concrete package

    Two documents, a registry holding them, a validator for the patterns
    that are used below, and document methods that follow the collaborator
    contract: a document compiles to a pointer to its definition and reports
    its own schema in a new delta. *)

Module Demo.

Inductive doc := User | Group.

#[global] Instance doc_eq_dec : EqDecision doc.
Proof. solve_decision. Defined.

Definition name_of (d : doc) : string :=
  match d with User => "User" | Group => "Group" end.

Definition module_of (d : doc) : string :=
  match d with User => "app.users" | Group => "app.groups" end.

Definition get_definition_id (d : doc) : string :=
  module_of d +:+ "." +:+ name_of d.

(** [User] is registered under its bare name, [Group] only under its
    module. *)
Definition registered (name : string) (module : option string) : option doc :=
  match module with
  | None => if String.eqb name "User" then Some User else None
  | Some m =>
      if String.eqb name "Group" && String.eqb m "app.groups" then Some Group
      else None
  end.

(** Nesting depth of the groups of a pattern; [None] when a group is closed
    that was never opened. *)
Fixpoint paren_depth (s : string) (depth : nat) : option nat :=
  match s with
  | EmptyString => Some depth
  | String c rest =>
      if Ascii.eqb c "("%char then paren_depth rest (S depth)
      else if Ascii.eqb c ")"%char then
        match depth with
        | O => None
        | S d => paren_depth rest d
        end
      else paren_depth rest depth
  end.

Definition re_compile_error (regex : string) : option string :=
  match paren_depth regex 0 with
  | Some O => None
  | _ => Some "unbalanced parenthesis"
  end.

Definition pointer (definition_id : string) : pyval :=
  PDict {["$ref" := PStr ("#/definitions/" +:+ definition_id)]}.

Definition Document_get_definitions_and_schema (d : doc)
    (definitions : option addr) : M (addr * pyval) :=
  nd ← new_dict;
  dict_setitem nd (get_definition_id d) (PDict {["type" := PStr "object"]});;
  mret (nd, pointer (get_definition_id d)).

Definition name_field : @field doc :=
  StringField StringField_ base_defaults None PNone PNone.

Definition Document_walk (d : doc) (through : bool) (visited : list doc)
  : list (@field doc) * option error :=
  ([name_field], None).

Definition compile : @field doc -> option addr -> M (addr * pyval) :=
  get_definitions_and_schema re_compile_error registered
    get_definition_id module_of Document_get_definitions_and_schema.

Definition traverse : @field doc -> bool -> list doc -> yielded :=
  walk registered module_of Document_walk.

Definition resolve : string + doc -> option doc -> res doc :=
  document_cls registered module_of.

(** A mail address field with a title, empty choices and a default that is
    produced on demand; an object field with two properties. *)
Definition titled_field : @field doc :=
  StringField EmailField
    (mkBase true (Some "Mail") None (Plain (Some [])) (Callable (fun _ => PNone)))
    None PNone PNone.

(** An object field none of whose fields has a callable attribute. *)
Definition account_field : @field doc :=
  DictField base_defaults
    (Some [("name", name_field); ("active", BooleanField base_defaults)])
    (Some [("^x-", name_field)]) (Some (inl false)) PNone PNone.

Definition person_field : @field doc :=
  DictField base_defaults
    (Some [("name", name_field); ("mail", titled_field)]) (Some [])
    (Some (inl false)) PNone PNone.

End Demo.

(** ** Properties *)

Section Properties.

Context {Doc : Type} `{EqDecision Doc}.
Variable re_compile_error : string -> option string.
Variable registered : string -> option string -> option Doc.
Variable get_definition_id : Doc -> string.
Variable module_of : Doc -> string.
Variable Document_get_definitions_and_schema :
  Doc -> option addr -> M (addr * pyval).
Variable Document_walk :
  Doc -> bool -> list Doc -> list (@field Doc) * option error.

Let compile :=
  get_definitions_and_schema re_compile_error registered
    get_definition_id module_of Document_get_definitions_and_schema.

Let traverse := walk registered module_of Document_walk.

Let resolve := document_cls registered module_of.

(** C7.  A string field constructed with pattern ^[a-z]+$ and minimum
    length 1, every other attribute left at its default, compiles to an
    empty delta (a new dictionary with no entry) and to the fragment
    {type: string, pattern: ^[a-z]+$, minLength: 1}, which has exactly these
    three keys. *)
Theorem string_pattern_minlength_fragment (f : @field Doc)
    (definitions : option addr) (h : store) :
  StringField_init re_compile_error StringField_ (Some "^[a-z]+$") (PInt 1)
    PNone base_defaults = Ok f ->
  let nd := fresh (dom h) in
  let fragment : dict :=
    {["type" := PStr "string"; "pattern" := PStr "^[a-z]+$";
      "minLength" := PInt 1]} in
  compile f definitions h = (Ok (nd, PDict fragment), <[nd := ∅]> h)
  /\ h !! nd = None
  /\ dom fragment = {["type"; "pattern"; "minLength"]}.
Proof.
  unfold StringField_init, _validate_regex.
  destruct (re_compile_error "^[a-z]+$"); intros Hinit; [discriminate|].
  injection Hinit as <-. cbn zeta. split; [|split].
  - reflexivity.
  - apply not_elem_of_dom, is_fresh.
  - rewrite !dom_insert_L, dom_singleton_L. set_solver.
Qed.

(** *** Running the store monad *)

Lemma run_bind {A B} (m : M A) (k : A -> M B) (h : store) :
  (m ≫= k) h
  = match m h with
    | (Ok a, h') => k a h'
    | (Raise e, h') => (Raise e, h')
    end.
Proof. reflexivity. Qed.

Lemma run_ret {A B} (a : A) (k : A -> M B) (h : store) :
  (mret a ≫= k) h = k a h.
Proof. reflexivity. Qed.

Lemma run_lift_ok {A B} (a : A) (k : A -> M B) (h : store) :
  (lift (Ok a) ≫= k) h = k a h.
Proof. reflexivity. Qed.

Lemma run_lift_raise {A B} (e : error) (k : A -> M B) (h : store) :
  (lift (Raise e) ≫= k) h = (Raise e, h).
Proof. reflexivity. Qed.

Lemma run_read {B} (l : addr) (k : dict -> M B) (h : store) :
  (read l ≫= k) h = k (contents h l) h.
Proof. reflexivity. Qed.

Lemma run_new_dict {B} (k : addr -> M B) (h : store) :
  (new_dict ≫= k) h = k (fresh (dom h)) (<[fresh (dom h) := ∅]> h).
Proof. reflexivity. Qed.

Lemma run_dict_update {B} (target source : addr) (k : unit -> M B)
    (h : store) :
  (dict_update target source ≫= k) h
  = k tt (<[target := contents h source ∪ contents h target]> h).
Proof. reflexivity. Qed.

Lemma contents_lookup (h : store) (l : addr) (m : dict) :
  h !! l = Some m -> contents h l = m.
Proof. unfold contents. by intros ->. Qed.

(** *** Lookups in the dictionaries built by the compiler *)

Lemma common_fields_lookup (b : BaseField) (k : string) :
  k ∉ ["title"; "description"; "enum"; "default"] ->
  _get_common_schema_fields b !! k = None.
Proof.
  intros Hk. rewrite !not_elem_of_cons in Hk.
  destruct Hk as (? & ? & ? & ? & _).
  unfold _get_common_schema_fields.
  destruct (title b), (description b), (choices b) as [[|]|],
    (default_is_not_none b);
    rewrite ?lookup_insert_ne by done; apply lookup_empty.
Qed.

Lemma lookup_update (schema other : dict) (k : string) :
  other !! k = None -> update schema other !! k = schema !! k.
Proof. intros Hk. unfold update. by apply lookup_union_r. Qed.

Lemma lookup_set_if_not_none_ne (key : string) (v : pyval) (schema : dict)
    (k : string) :
  k <> key -> set_if_not_none key v schema !! k = schema !! k.
Proof.
  intros Hk. unfold set_if_not_none.
  destruct (is_none v); [done|]. by rewrite lookup_insert_ne.
Qed.

Ltac not_common :=
  apply common_fields_lookup; rewrite !not_elem_of_cons;
  repeat split; try done; apply not_elem_of_nil.

Ltac lookup_simpl :=
  repeat first
    [ rewrite lookup_insert_eq
    | rewrite lookup_insert_ne by done
    | rewrite lookup_set_if_not_none_ne by done
    | rewrite lookup_update by not_common
    | rewrite lookup_singleton_eq
    | rewrite lookup_singleton_ne by done ].

(** *** Resolution *)

(** C2.  The [document_cls] property computes exactly the resolution of the
    specification: it returns [r] if and only if the algorithm in the
    specification's words yields [r].  Since the property is evaluated by
    every compile, and by every traverse that descends, a failed resolution
    ends both with that same error. *)
Theorem document_cls_follows_resolution (_document_cls : string + Doc)
    (owner_cls : option Doc) (r : res Doc) :
  (resolution registered module_of _document_cls owner_cls r
   <-> resolve _document_cls owner_cls = r)
  /\ forall (b : BaseField) (definitions : option addr) (h : store)
       (visited : list Doc),
       match resolve _document_cls owner_cls with
       | Raise e =>
           compile (DocumentField b _document_cls owner_cls) definitions h
           = (Raise e, h)
           /\ traverse (DocumentField b _document_cls owner_cls) true visited
              = ([DocumentField b _document_cls owner_cls], Some e)
       | Ok _ => True
       end.
Proof.
  split; [split|].
  - intros Hres. subst resolve. unfold document_cls, registry_get_document.
    destruct Hres; try reflexivity;
      match goal with
      | Hne : _ <> RECURSIVE_REFERENCE_CONSTANT |- _ =>
          apply String.eqb_neq in Hne; rewrite Hne
      end;
      repeat match goal with
             | Hreg : registered _ _ = _ |- _ => rewrite Hreg; clear Hreg
             end; reflexivity.
  - intros <-. subst resolve. unfold document_cls, registry_get_document.
    destruct _document_cls as [name|doc]; [|constructor].
    destruct (String.eqb name RECURSIVE_REFERENCE_CONSTANT) eqn:Hself.
    + apply String.eqb_eq in Hself as ->.
      destruct owner_cls; constructor.
    + apply String.eqb_neq in Hself.
      destruct (registered name None) eqn:Hfirst; [by constructor|].
      destruct owner_cls as [owner|]; [|by constructor].
      destruct (registered name (Some (module_of owner))) eqn:Hsecond;
        by constructor.
  - intros b definitions h visited. subst resolve compile traverse.
    destruct (document_cls registered module_of _document_cls owner_cls)
      as [doc|e] eqn:Hdoc; [done|].
    split.
    + cbn [get_definitions_and_schema]. by rewrite Hdoc.
    + cbn [walk]. by rewrite Hdoc.
Qed.

(** *** Document references whose definition is already known *)

(** C1 (amended).  When the resolved document's definition id is a key of
    the mapping passed to compile, the result is a new empty delta together
    with the very fragment the mapping holds under that id; the document's
    own compilation takes no part in it. *)
Theorem document_field_known_definition (b : BaseField)
    (_document_cls : string + Doc) (owner_cls : option Doc) (doc : Doc)
    (d : addr) (h : store) (m : dict) (fragment : pyval) :
  resolve _document_cls owner_cls = Ok doc ->
  h !! d = Some m ->
  m !! get_definition_id doc = Some fragment ->
  let nd := fresh (dom h) in
  compile (DocumentField b _document_cls owner_cls) (Some d) h
  = (Ok (nd, fragment), <[nd := ∅]> h)
  /\ h !! nd = None.
Proof.
  intros Hdoc Hd Hm nd. split; [|apply not_elem_of_dom, is_fresh].
  subst resolve compile. cbn [get_definitions_and_schema].
  rewrite Hdoc, run_lift_ok, run_read, (contents_lookup _ _ _ Hd).
  assert (dict_truthy m = true) as ->.
  { unfold dict_truthy. rewrite bool_decide_eq_false_2; [done|].
    intros ->. by rewrite lookup_empty in Hm. }
  rewrite Hm. reflexivity.
Qed.

(** *** Numbers *)

(** C9 (the code at the failing input).  A number or integer field with the
    exclusive-minimum flag set compiles to a fragment that has no
    [exclusiveMinimum] key: the flag is written under [exclusiveMinumum].
    The exclusive-maximum flag is written under [exclusiveMaximum]. *)
Theorem number_exclusive_minimum_keyword (cls : number_class)
    (b : BaseField) (multiple_of minimum maximum : pyval)
    (exclusive_maximum : bool) (definitions : option addr) (h : store) :
  exists schema : dict,
    compile (NumberField cls b multiple_of minimum true maximum
               exclusive_maximum) definitions h
    = (Ok (fresh (dom h), PDict schema), <[fresh (dom h) := ∅]> h)
    /\ schema !! "exclusiveMinimum" = None
    /\ schema !! "exclusiveMinumum" = Some (PBool true)
    /\ schema !! "exclusiveMaximum"
       = if exclusive_maximum then Some (PBool true) else None.
Proof.
  eexists. split; [reflexivity|]. unfold number_schema.
  destruct exclusive_maximum; repeat split; by lookup_simpl.
Qed.

(** *** Traversal *)

Lemma chain_yield (f : @field Doc) (g : yielded) :
  chain (yield f) g = (f :: g.1, g.2).
Proof. reflexivity. Qed.

(** Every traversal yields the node itself first. *)
Lemma walk_self_first (f : @field Doc) (through : bool) (visited : list Doc) :
  exists (rest : list field) (e : option error),
    traverse f through visited = (f :: rest, e).
Proof.
  subst traverse. destruct f; cbn [walk]; rewrite ?chain_yield;
    unfold yield; eauto.
Qed.

(** C4 (the code at the failing input).  Traversing a negation field yields
    the field itself and nothing else: the wrapped child is not visited, so
    the result is never the field followed by the nodes of its child. *)
Theorem not_field_walk_omits_child (b : BaseField) (child : @field Doc)
    (through : bool) (visited : list Doc) :
  traverse (NotField b child) through visited = ([NotField b child], None)
  /\ traverse (NotField b child) through visited
     <> chain (yield (NotField b child)) (traverse child through visited).
Proof.
  split; [reflexivity|].
  destruct (walk_self_first child through visited) as (rest & e & Hchild).
  rewrite Hchild, chain_yield. subst traverse. cbn [walk fst]. unfold yield.
  intros [=].
Qed.

(** A one-of, any-of or all-of field yields itself, then the traversals of
    its children in the order of [fields]. *)
Lemma of_field_walk (cls : of_class) (b : BaseField)
    (fields : list (@field Doc)) (through : bool) (visited : list Doc) :
  traverse (OfField cls b fields) through visited
  = chain (yield (OfField cls b fields))
      (walk_fields (fun c => traverse c through visited) fields).
Proof. reflexivity. Qed.

Lemma primitive_walk (f : @field Doc) (through : bool) (visited : list Doc) :
  is_primitive f = true -> traverse f through visited = ([f], None).
Proof. by destruct f. Qed.

(** An object field yields itself, then the traversals of the declared
    properties in the mapping's iteration order. *)
Lemma dict_walk_properties (b : BaseField)
    (properties : list (string * @field Doc)) (additional : option bool)
    (min_properties max_properties : pyval) (through : bool)
    (visited : list Doc) :
  let self := DictField b (Some properties) None (inl <$> additional)
                min_properties max_properties in
  traverse self through visited
  = chain (yield self)
      (walk_values (fun c => traverse c through visited) properties).
Proof.
  intros self. subst self traverse. cbn.
  destruct (walk_values _ properties) as [l [e|]]; destruct additional; cbn;
    by rewrite ?app_nil_r.
Qed.

(** C8 (amended).  An object field with exactly two declared properties
    that are primitive fields, and with no pattern properties and no
    additional-properties schema, yields exactly three nodes: itself, then
    the two property fields in the order in which the properties mapping
    iterates ([itervalues]), here the order of the list.  That is the
    declaration order only for a mapping that keeps it; a plain dictionary
    iterates in the order of its hash table, whatever the order in which
    the properties were written. *)
Theorem dict_walk_two_primitive_properties (b : BaseField)
    (k1 k2 : string) (f1 f2 : @field Doc) (additional : option bool)
    (min_properties max_properties : pyval) (through : bool)
    (visited : list Doc) :
  is_primitive f1 = true ->
  is_primitive f2 = true ->
  let self := DictField b (Some [(k1, f1); (k2, f2)]) None
                (inl <$> additional) min_properties max_properties in
  traverse self through visited = ([self; f1; f2], None).
Proof.
  intros H1 H2 self. subst self. rewrite dict_walk_properties. cbn.
  rewrite (primitive_walk f1), (primitive_walk f2) by done. reflexivity.
Qed.

(** *** Arrays *)

(** C6.  An array field whose items are the pair [f1; f2] and whose
    additional-items policy is the boolean false compiles, once both
    children compile (the second after the delta of the first has been
    merged), to a fragment whose [items] is the sequence of the two child
    fragments in that order and whose [additionalItems] is the boolean
    false itself. *)
Theorem array_pair_items_fragment (b : BaseField) (f1 f2 : @field Doc)
    (min_items max_items : pyval) (unique_items : bool)
    (definitions : option addr) (h h1 h2 : store) (l1 l2 : addr)
    (s1 s2 : pyval) :
  let nd := fresh (dom h) in
  compile f1 definitions (<[nd := ∅]> h) = (Ok (l1, s1), h1) ->
  compile f2 definitions (<[nd := contents h1 l1 ∪ contents h1 nd]> h1)
  = (Ok (l2, s2), h2) ->
  exists schema : dict,
    compile (ArrayField b (inr [f1; f2]) min_items max_items unique_items
               (Some (inl false))) definitions h
    = (Ok (nd, PDict schema), <[nd := contents h2 l2 ∪ contents h2 nd]> h2)
    /\ schema !! "items" = Some (PList [s1; s2])
    /\ schema !! "additionalItems" = Some (PBool false).
Proof.
  intros nd H1 H2. subst compile.
  cbn [get_definitions_and_schema compile_sequence compile_additional].
  eexists. split.
  - rewrite !run_bind. unfold new_dict at 1. fold nd.
    rewrite !run_bind, H1, run_dict_update, !run_bind, H2. reflexivity.
  - unfold array_schema. destruct unique_items; split; by lookup_simpl.
Qed.

(** *** Pattern properties *)



(** *** The caller's definitions mapping is not written to *)

Section Frame.

Variable d : addr.
Variable m : dict.

Lemma frames_ret {A} (a : A) (Q : A -> Prop) : Q a -> frames d m (mret a) Q.
Proof. intros HQ h r h' Hd [= <- <-]. split; [done|]. by intros ? [= <-]. Qed.

Lemma frames_lift {A} (r : res A) : frames d m (lift r) (fun _ => True).
Proof. intros h r' h' Hd [= <- <-]. by split. Qed.

Lemma frames_read (l : addr) : frames d m (read l) (fun _ => True).
Proof. intros h r h' Hd [= <- <-]. by split. Qed.

Lemma frames_new_dict : frames d m new_dict (fun l => l <> d).
Proof.
  intros h r h' Hd [= <- <-].
  assert (fresh (dom h) <> d) as Hne.
  { intros Heq. apply (is_fresh (dom h)). rewrite Heq.
    apply elem_of_dom. eauto. }
  split; [by rewrite lookup_insert_ne|]. by intros ? [= <-].
Qed.

Lemma frames_dict_update (target source : addr) :
  target <> d -> frames d m (dict_update target source) (fun _ => True).
Proof.
  intros Hne h r h' Hd [= <- <-]. split; [by rewrite lookup_insert_ne|done].
Qed.

Lemma frames_dict_setitem (target : addr) (key : string) (value : pyval) :
  target <> d -> frames d m (dict_setitem target key value) (fun _ => True).
Proof.
  intros Hne h r h' Hd [= <- <-]. split; [by rewrite lookup_insert_ne|done].
Qed.

Lemma frames_bind {A B} (c : M A) (k : A -> M B) (Q : A -> Prop)
    (R : B -> Prop) :
  frames d m c Q ->
  (forall a, Q a -> frames d m (k a) R) ->
  frames d m (c ≫= k) R.
Proof.
  intros Hc Hk h r h' Hd Hrun. rewrite run_bind in Hrun.
  destruct (c h) as [[a|e] h1] eqn:Hch.
  - destruct (Hc _ _ _ Hd Hch) as [Hd1 HQ]. eapply Hk; eauto.
  - injection Hrun as <- <-. destruct (Hc _ _ _ Hd Hch) as [Hd1 _].
    split; [done|]. intros ? [=].
Qed.

Lemma frames_weaken {A} (c : M A) (Q R : A -> Prop) :
  frames d m c Q -> (forall a, Q a -> R a) -> frames d m c R.
Proof.
  intros Hc HQR h r h' Hd Hrun. destruct (Hc _ _ _ Hd Hrun) as [Hd' HQ].
  split; [done|]. intros a ->. by apply HQR, HQ.
Qed.

Section FrameChildren.

Variable compile_child : @field Doc -> M (addr * pyval).

Lemma frames_compile_sequence (nd : addr) (l : list field) :
  nd <> d ->
  Forall (fun f => separate d m (compile_child f)) l ->
  frames d m (compile_sequence compile_child nd l) (fun _ => True).
Proof.
  intros Hnd Hl. induction Hl as [|f l Hf Hl IH]; cbn [compile_sequence].
  - by apply frames_ret.
  - eapply frames_bind; [exact Hf|]. intros [idefs ischema] Hne.
    eapply frames_bind; [by apply frames_dict_update|]. intros _ _.
    eapply frames_bind; [exact IH|]. intros rest _. by apply frames_ret.
Qed.

Lemma frames_process_loop (nd : addr) (props : list (string * field))
    (schema : dict) :
  nd <> d ->
  Forall (fun p => separate d m (compile_child p.2)) props ->
  frames d m (process_loop compile_child nd schema props) (fun _ => True).
Proof.
  intros Hnd Hl. revert schema.
  induction Hl as [|[prop f] l Hf Hl IH]; intros schema; cbn [process_loop].
  - by apply frames_ret.
  - eapply frames_bind; [exact Hf|]. intros [fdefs fschema] Hne.
    eapply frames_bind; [by apply frames_dict_update|]. intros _ _.
    apply IH.
Qed.

Lemma frames_process_properties (props : list (string * field)) :
  Forall (fun p => separate d m (compile_child p.2)) props ->
  frames d m (_process_properties compile_child props) (fun p => p.1 <> d).
Proof.
  intros Hl. unfold _process_properties.
  eapply frames_bind; [apply frames_new_dict|]. intros nd Hnd.
  eapply frames_bind; [by apply frames_process_loop|]. intros schema _.
  by apply frames_ret.
Qed.

Lemma frames_compile_additional (key : string) (nd : addr)
    (additional : option (bool + field)) (schema : dict) :
  nd <> d ->
  additional_field (fun f => separate d m (compile_child f)) additional ->
  frames d m (compile_additional compile_child key nd additional schema)
    (fun _ => True).
Proof.
  intros Hnd Hadd. destruct additional as [[b|f]|]; cbn [compile_additional].
  - by apply frames_ret.
  - eapply frames_bind; [exact Hadd|]. intros [idefs ischema] Hne.
    eapply frames_bind; [by apply frames_dict_update|]. intros _ _.
    by apply frames_ret.
  - by apply frames_ret.
Qed.

End FrameChildren.

(** The contract of the document collaborator: its compile obeys the same
    rule as a field's. *)
Hypothesis Document_separate : forall doc : Doc,
  separate d m (Document_get_definitions_and_schema doc (Some d)).

Lemma compile_separate (f : @field Doc) : separate d m (compile f (Some d)).
Proof.
  subst compile. unfold separate.
  induction f as
    [ | | | b items mi ma u additional Hitems Hadd
    | b properties pattern_properties additional mi ma Hprops Hpat Hadd
    | b dc owner | cls b fields Hfields | b f IH ] using field_tree_ind;
    cbn [get_definitions_and_schema].
  - eapply frames_bind; [apply frames_new_dict|]. intros nd Hnd.
    by apply frames_ret.
  - eapply frames_bind; [apply frames_new_dict|]. intros nd Hnd.
    by apply frames_ret.
  - eapply frames_bind; [apply frames_new_dict|]. intros nd Hnd.
    by apply frames_ret.
  - eapply frames_bind with (Q := fun p => p.1 <> d).
    + destruct items as [item|l]; [exact Hitems|].
      eapply frames_bind; [apply frames_new_dict|]. intros nd Hnd.
      eapply frames_bind; [by apply frames_compile_sequence|].
      intros ? _. by apply frames_ret.
    + intros [nd nested_schema] Hnd.
      eapply frames_bind; [by apply frames_compile_additional|].
      intros schema _. by apply frames_ret.
  - eapply frames_bind; [apply frames_new_dict|]. intros nd Hnd.
    eapply frames_bind with (Q := fun _ => True).
    { destruct properties as [props|]; [|by apply frames_ret].
      eapply frames_bind; [by apply frames_process_properties|].
      intros [pd ps] Hpd.
      eapply frames_bind; [by apply frames_dict_update|]. intros _ _.
      by apply frames_ret. }
    intros schema _.
    eapply frames_bind with (Q := fun _ => True).
    { destruct pattern_properties as [props|]; [|by apply frames_ret].
      eapply frames_bind; [apply frames_lift|]. intros _ _.
      eapply frames_bind; [by apply frames_process_properties|].
      intros [pd ps] Hpd.
      eapply frames_bind; [by apply frames_dict_update|]. intros _ _.
      by apply frames_ret. }
    intros schema' _.
    eapply frames_bind; [by apply frames_compile_additional|].
    intros schema'' _. by apply frames_ret.
  - eapply frames_bind; [apply frames_lift|]. intros doc _.
    eapply frames_bind; [apply frames_read|]. intros defs _.
    destruct (dict_truthy defs); [|apply Document_separate].
    destruct (defs !! get_definition_id doc); [|apply Document_separate].
    eapply frames_bind; [apply frames_new_dict|]. intros nd Hnd.
    by apply frames_ret.
  - eapply frames_bind; [apply frames_new_dict|]. intros nd Hnd.
    eapply frames_bind; [by apply frames_compile_sequence|].
    intros ? _. by apply frames_ret.
  - eapply frames_bind; [exact IH|]. intros [fd fs] Hfd. by apply frames_ret.
Qed.

End Frame.

(** C5.  Whatever mapping is passed to compile, the call leaves it as it
    was, whether it returns or raises, and the delta it returns is a
    dictionary other than the one passed in.  The document collaborator is
    taken to obey the same rule, as its contract says. *)
Theorem compile_leaves_definitions_unchanged (f : @field Doc) (d : addr)
    (m : dict) (h : store) (r : res (addr * pyval)) (h' : store) :
  (forall doc : Doc,
     separate d m (Document_get_definitions_and_schema doc (Some d))) ->
  h !! d = Some m ->
  compile f (Some d) h = (r, h') ->
  h' !! d = Some m
  /\ forall (nd : addr) (fragment : pyval), r = Ok (nd, fragment) -> nd <> d.
Proof.
  intros Hdoc Hd Hrun.
  destruct (compile_separate d m Hdoc f h r h' Hd Hrun) as [Hd' Hnd].
  split; [done|]. intros nd fragment ->. exact (Hnd (nd, fragment) eq_refl).
Qed.


(** *** The [required] attribute *)

Lemma compile_additional_lookup (compile_child : @field Doc -> M (addr * pyval))
    (key : string) (nd : addr) (additional : option (bool + @field Doc))
    (schema schema' : dict) (h h' : store) (k : string) :
  compile_additional compile_child key nd additional schema h
  = (Ok schema', h') ->
  k <> key ->
  schema' !! k = schema !! k.
Proof.
  intros Hrun Hk. destruct additional as [[b|f]|]; cbn [compile_additional] in Hrun.
  - injection Hrun as <- <-. by rewrite lookup_insert_ne.
  - rewrite run_bind in Hrun.
    destruct (compile_child f h) as [[[idefs ischema]|e] h1]; [|done].
    injection Hrun as <- <-. by rewrite lookup_insert_ne.
  - by injection Hrun as <- <-.
Qed.

Lemma with_required_compile (r : bool) (f : @field Doc)
    (definitions : option addr) :
  compile (with_required r f) definitions = compile f definitions.
Proof. by destruct f. Qed.

Lemma with_required_stored (r : bool) (f : @field Doc) :
  required (field_base (with_required r f)) = r.
Proof. by destruct f. Qed.

Tactic Notation "bind_inv" hyp(H) "as" ident(a) ident(g) ident(E) :=
  rewrite run_bind in H;
  match type of H with
  | context [let (_, _) := ?c ?st in _] =>
      destruct (c st) as [[a|?] g] eqn:E; [|discriminate H]
  end.

Lemma own_fragment_has_no_required (f : @field Doc)
    (definitions : option addr) (h h' : store) (nd : addr)
    (fragment : pyval) :
  is_document_reference f = false ->
  compile f definitions h = (Ok (nd, fragment), h') ->
  exists schema : dict, fragment = PDict schema /\ schema !! "required" = None.
Proof.
  intros Hdoc Hrun. subst compile.
  destruct f as
    [ cls b regex mi ma | b | cls b mo mi emi ma ema
    | b items mi ma u additional
    | b properties pattern_properties additional mi ma
    | b dc owner | cls b fields | b f ];
    cbn [get_definitions_and_schema] in Hrun; [| | | | |done| |].
  - injection Hrun as <- <- <-. eexists. split; [done|].
    unfold string_schema.
    destruct regex as [r|]; [destruct (str_truthy r)|];
      destruct (string_format cls); by lookup_simpl.
  - injection Hrun as <- <- <-. eexists. split; [done|].
    unfold boolean_schema. by lookup_simpl.
  - injection Hrun as <- <- <-. eexists. split; [done|].
    unfold number_schema. destruct emi, ema; by lookup_simpl.
  - bind_inv Hrun as p g1 H1. destruct p as [nested_definitions nested_schema].
    bind_inv Hrun as s2 g2 H2. injection Hrun as <- <- <-.
    eexists. split; [done|].
    rewrite (compile_additional_lookup _ _ _ _ _ _ _ _ "required" H2) by done.
    unfold array_schema. destruct u; by lookup_simpl.
  - rewrite run_new_dict in Hrun.
    bind_inv Hrun as s1 g1 H1. bind_inv Hrun as s2 g2 H2.
    bind_inv Hrun as s3 g3 H3. injection Hrun as <- <- <-.
    eexists. split; [done|]. lookup_simpl.
    rewrite (compile_additional_lookup _ _ _ _ _ _ _ _ "required" H3) by done.
    assert (s2 !! "required" = s1 !! "required") as ->.
    { destruct pattern_properties as [props|]; [|by injection H2 as <- <-].
      bind_inv H2 as u g4 H4. bind_inv H2 as p g5 H5. destruct p as [pd ps].
      injection H2 as <- <-. by lookup_simpl. }
    destruct properties as [props|].
    + bind_inv H1 as p g5 H5. destruct p as [pd ps].
      injection H1 as <- <-. by lookup_simpl.
    + injection H1 as <- <-. by lookup_simpl.
  - rewrite run_new_dict in Hrun. bind_inv Hrun as one_of g1 H1.
    injection Hrun as <- <- <-. eexists. split; [done|].
    destruct cls; by lookup_simpl.
  - bind_inv Hrun as p g1 H1. destruct p as [fd fs].
    injection Hrun as <- <- <-. eexists. split; [done|]. by lookup_simpl.
Qed.

(** C10.  The [required] attribute is stored on the node and plays no part
    in compilation: replacing it by any value gives the same result, and
    the fragment a node builds itself has no [required] key.  (A document
    reference builds no fragment of its own: it passes on the one of the
    document or of the definitions mapping.) *)
Theorem required_never_compiled (f : @field Doc) (r : bool)
    (definitions : option addr) (h h' : store) (nd : addr)
    (fragment : pyval) :
  compile f definitions h = (Ok (nd, fragment), h') ->
  required (field_base (with_required r f)) = r
  /\ compile (with_required r f) definitions h = (Ok (nd, fragment), h')
  /\ (is_document_reference f = false ->
      exists schema : dict,
        fragment = PDict schema /\ schema !! "required" = None).
Proof.
  intros Hrun. split; [apply with_required_stored|]. split.
  - by rewrite with_required_compile.
  - intros Hdoc. by eapply own_fragment_has_no_required.
Qed.


(** ** Further properties of the code *)

(** *** Construction and validation *)



(** *** Document references *)

(** When the resolved document's definition id is not a key of the mapping
    passed to compile (or no mapping is passed), the compilation of the
    reference is exactly the document's own compilation, run on the same
    mapping in the same store. *)
Theorem document_field_unknown_definition (b : BaseField)
    (_document_cls : string + Doc) (owner_cls : option Doc) (doc : Doc)
    (definitions : option addr) (h : store) :
  resolve _document_cls owner_cls = Ok doc ->
  (forall d, definitions = Some d ->
             contents h d !! get_definition_id doc = None) ->
  compile (DocumentField b _document_cls owner_cls) definitions h
  = Document_get_definitions_and_schema doc definitions h.
Proof.
  intros Hdoc Hnew. subst resolve compile. cbn [get_definitions_and_schema].
  rewrite Hdoc, run_lift_ok. destruct definitions as [d|]; [|done].
  rewrite run_read, (Hnew d eq_refl). by destruct (dict_truthy _).
Qed.

(** Once [set_owner] has bound the owner, a reference that holds the
    self-reference token compiles and is traversed like a reference that
    holds the owner itself: the yielded nodes after the field, and the
    exception, are the same. *)
Theorem self_reference_after_set_owner (b : BaseField)
    (previous : option Doc) (owner : Doc) (definitions : option addr)
    (h : store) (through : bool) (visited : list Doc) :
  let bound :=
    set_owner (DocumentField b (inl RECURSIVE_REFERENCE_CONSTANT) previous)
      owner in
  let direct := DocumentField b (inr owner) None in
  compile bound definitions h = compile direct definitions h
  /\ traverse bound through visited
     = (bound :: tail (traverse direct through visited).1,
        (traverse direct through visited).2).
Proof.
  intros bound direct. subst bound direct compile traverse. split; [done|].
  cbn [set_owner walk document_cls].
  destruct through; [|done]. cbn.
  destruct (bool_decide (owner ∈ visited)); [done|].
  by destruct (Document_walk owner true (visited ++ [owner])) as [l [e|]].
Qed.

(** *** Traversal *)

Lemma walk_fields_ext (w1 w2 : @field Doc -> yielded) (l : list field) :
  Forall (fun c => w1 c = w2 c) l -> walk_fields w1 l = walk_fields w2 l.
Proof.
  induction 1 as [|c l Hc _ IH]; cbn [walk_fields]; [done|].
  by rewrite Hc, IH.
Qed.

Lemma walk_values_ext (w1 w2 : @field Doc -> yielded)
    (l : list (string * field)) :
  Forall (fun p => w1 p.2 = w2 p.2) l -> walk_values w1 l = walk_values w2 l.
Proof.
  induction 1 as [|[k c] l Hc _ IH]; cbn [walk_values]; [done|].
  cbn in Hc. by rewrite Hc, IH.
Qed.

Lemma chain_no_error (g1 g2 : @yielded Doc) :
  g1.2 = None -> g2.2 = None -> (chain g1 g2).2 = None.
Proof. destruct g1 as [l1 [e|]]; [done|]. by intros _ Hg2. Qed.

Lemma walk_fields_no_error (w : @field Doc -> yielded) (l : list field) :
  Forall (fun c => (w c).2 = None) l -> (walk_fields w l).2 = None.
Proof.
  induction 1 as [|c l Hc _ IH]; cbn [walk_fields]; [done|].
  by apply chain_no_error.
Qed.

Lemma walk_values_no_error (w : @field Doc -> yielded)
    (l : list (string * field)) :
  Forall (fun p => (w p.2).2 = None) l -> (walk_values w l).2 = None.
Proof.
  induction 1 as [|[k c] l Hc _ IH]; cbn [walk_values]; [done|].
  by apply chain_no_error.
Qed.

Lemma walk_shallow (f : @field Doc) (visited : list Doc) :
  (traverse f false visited).2 = None
  /\ traverse f false visited = traverse f false [].
Proof.
  subst traverse.
  induction f as
    [ | | | b items mi ma u additional Hitems Hadd
    | b properties pattern_properties additional mi ma Hprops Hpat Hadd
    | b dc owner | cls b fields Hfields | b f IH ] using field_tree_ind;
    cbn [walk]; try done.
  - destruct items as [item|l].
    + destruct Hitems as [Hnone Heq]. split; [by apply chain_no_error|].
      by rewrite Heq.
    + split.
      * apply chain_no_error; [done|]. apply walk_fields_no_error.
        eapply Forall_impl; [exact Hitems|]. by intros c [? _].
      * f_equal. apply walk_fields_ext.
        eapply Forall_impl; [exact Hitems|]. by intros c [_ ?].
  - assert (forall props : list (string * field),
              Forall (fun p =>
                (walk registered module_of Document_walk p.2 false visited).2
                = None
                /\ walk registered module_of Document_walk p.2 false visited
                   = walk registered module_of Document_walk p.2 false [])
                props ->
              (walk_values
                 (fun c => walk registered module_of Document_walk c false
                             visited) props).2 = None
              /\ walk_values
                   (fun c => walk registered module_of Document_walk c false
                               visited) props
                 = walk_values
                     (fun c => walk registered module_of Document_walk c
                                 false []) props) as Hmapping.
    { intros props Hall. split.
      - apply walk_values_no_error.
        eapply Forall_impl; [exact Hall|]. by intros p [? _].
      - apply walk_values_ext.
        eapply Forall_impl; [exact Hall|]. by intros p [_ ?]. }
    destruct properties as [props|]; [destruct (Hmapping _ Hprops) as [Hn1 He1]|];
      (destruct pattern_properties as [pats|];
       [destruct (Hmapping _ Hpat) as [Hn2 He2]|]);
      destruct additional as [[?|af]|]; cbn in Hadd;
      try lazymatch type of Hadd with
          | _ /\ _ => destruct Hadd as [Hn3 He3]
          end;
      (split; [repeat apply chain_no_error; done|]);
      rewrite ?He1, ?He2, ?He3; reflexivity.
  - split.
    + apply chain_no_error; [done|]. apply walk_fields_no_error.
      eapply Forall_impl; [exact Hfields|]. by intros c [? _].
    + f_equal. apply walk_fields_ext.
      eapply Forall_impl; [exact Hfields|]. by intros c [_ ?].
Qed.

(** A traversal that is not asked to go through document fields never
    raises, whatever the references in the tree hold and whether or not they
    can be resolved; it yields the node itself first; and it does not depend
    on the visited documents it is given. *)
Theorem walk_without_descent (f : @field Doc) (visited : list Doc) :
  exists rest : list field,
    traverse f false visited = (f :: rest, None)
    /\ traverse f false [] = (f :: rest, None).
Proof.
  destruct (walk_shallow f visited) as [Hnone Heq].
  destruct (walk_self_first f false visited) as (rest & e & Hw).
  rewrite Hw in Hnone. cbn in Hnone. subst e.
  exists rest. split; [done|]. by rewrite <- Heq.
Qed.

(** The guard of [DocumentField.walk]: asked to go through document fields,
    a reference whose document is among the visited ones yields only itself;
    otherwise it yields itself and then what the document's own walk yields,
    called with the document added at the end of the visited ones. *)
Theorem document_field_walk_guard (b : BaseField)
    (_document_cls : string + Doc) (owner_cls : option Doc) (doc : Doc)
    (visited : list Doc) :
  resolve _document_cls owner_cls = Ok doc ->
  let self := DocumentField b _document_cls owner_cls in
  traverse self true visited
  = if bool_decide (doc ∈ visited) then ([self], None)
    else (self :: (Document_walk doc true (visited ++ [doc])).1,
          (Document_walk doc true (visited ++ [doc])).2).
Proof.
  intros Hdoc self. subst self resolve traverse. cbn [walk]. rewrite Hdoc.
  by destruct (bool_decide (doc ∈ visited)).
Qed.

(** [ArrayField.walk] goes through the items only: the field given as
    [additional_items] is never visited.  What is yielded after the array
    itself is what is yielded for the same array without additional items. *)
Theorem array_walk_skips_additional_items (b : BaseField)
    (items : @field Doc + list (@field Doc)) (min_items max_items : pyval)
    (unique_items : bool) (additional : @field Doc) (through : bool)
    (visited : list Doc) :
  let with_additional :=
    ArrayField b items min_items max_items unique_items
      (Some (inr additional)) in
  let without := ArrayField b items min_items max_items unique_items None in
  traverse with_additional through visited
  = (with_additional :: tail (traverse without through visited).1,
     (traverse without through visited).2).
Proof.
  intros with_additional without.
  subst with_additional without traverse. cbn [walk].
  by rewrite !chain_yield.
Qed.

Lemma walk_fields_primitive (through : bool) (visited : list Doc)
    (l : list (@field Doc)) :
  Forall (fun c => is_primitive c = true) l ->
  walk_fields (fun c => traverse c through visited) l = (l, None).
Proof.
  induction 1 as [|c l Hc _ IH]; cbn [walk_fields]; [done|].
  by rewrite (primitive_walk c through visited Hc), IH.
Qed.

(** A one-of, any-of or all-of field whose children are primitive fields
    yields itself and then its children, in the order of [fields]; so does
    an array whose items are a sequence of primitive fields. *)
Theorem walk_primitive_children (cls : of_class) (b : BaseField)
    (children : list (@field Doc)) (min_items max_items : pyval)
    (unique_items : bool) (additional : option (bool + @field Doc))
    (through : bool) (visited : list Doc) :
  Forall (fun c => is_primitive c = true) children ->
  let combinator := OfField cls b children in
  let array := ArrayField b (inr children) min_items max_items unique_items
                 additional in
  traverse combinator through visited = (combinator :: children, None)
  /\ traverse array through visited = (array :: children, None).
Proof.
  intros Hchildren combinator array.
  pose proof (walk_fields_primitive through visited children Hchildren) as Hw.
  subst combinator array traverse. cbn [walk]. by rewrite Hw.
Qed.

(** *** Arrays with one item schema *)

(** When [items] is a single field, the compiled [items] is that field's
    fragment itself, not a sequence, and the delta that is returned is the
    very dictionary the item returned. *)
Theorem array_single_item_fragment (b : BaseField) (item : @field Doc)
    (min_items max_items : pyval) (unique_items : bool)
    (policy : option bool) (definitions : option addr) (h h' : store)
    (nd : addr) (item_schema : pyval) :
  compile item definitions h = (Ok (nd, item_schema), h') ->
  exists schema : dict,
    compile (ArrayField b (inl item) min_items max_items unique_items
               (inl <$> policy)) definitions h
    = (Ok (nd, PDict schema), h')
    /\ schema !! "items" = Some item_schema
    /\ schema !! "additionalItems" = PBool <$> policy.
Proof.
  intros Hitem. subst compile. cbn [get_definitions_and_schema].
  rewrite run_bind, Hitem.
  destruct policy as [p|]; cbn [fmap option_fmap option_map compile_additional];
    (eexists; split; [reflexivity|]); unfold array_schema;
    destruct unique_items; split; by lookup_simpl.
Qed.

(** *** The dictionary a field builds *)

Lemma compile_sequence_length (compile_child : @field Doc -> M (addr * pyval))
    (nd : addr) (l : list (@field Doc)) (h h' : store) (one_of : list pyval) :
  compile_sequence compile_child nd l h = (Ok one_of, h') ->
  length one_of = length l.
Proof.
  revert h one_of. induction l as [|c l IH]; intros h one_of Hrun;
    cbn [compile_sequence] in Hrun.
  - by injection Hrun as <- <-.
  - bind_inv Hrun as p g1 H1. destruct p as [idefs ischema].
    rewrite run_dict_update in Hrun. bind_inv Hrun as rest g2 H2.
    injection Hrun as <- <-. cbn. f_equal. by eapply IH.
Qed.

Lemma process_loop_dom (compile_child : @field Doc -> M (addr * pyval))
    (nd : addr) (props : list (string * @field Doc)) (schema schema' : dict)
    (h h' : store) :
  process_loop compile_child nd schema props h = (Ok schema', h') ->
  dom schema' = dom schema ∪ list_to_set props.*1.
Proof.
  clear compile traverse resolve. revert schema h.
  induction props as [|[prop f] props IH]; intros schema h Hrun;
    cbn [process_loop] in Hrun.
  - injection Hrun as <- <-. cbn. set_solver.
  - bind_inv Hrun as p g1 H1. destruct p as [fdefs fschema].
    rewrite run_dict_update in Hrun. apply IH in Hrun. rewrite Hrun.
    rewrite dom_insert_L. cbn. set_solver.
Qed.

Lemma process_properties_dom
    (compile_child : @field Doc -> M (addr * pyval))
    (props : list (string * @field Doc)) (h h' : store) (pd : addr)
    (ps : dict) :
  _process_properties compile_child props h = (Ok (pd, ps), h') ->
  dom ps = list_to_set props.*1.
Proof.
  clear compile traverse resolve.
  unfold _process_properties. intros Hrun. rewrite run_new_dict in Hrun.
  bind_inv Hrun as ps' g1 H1. injection Hrun as <- <- <-.
  apply process_loop_dom in H1. rewrite H1, dom_empty_L. set_solver.
Qed.

Lemma compile_additional_shape
    (compile_child : @field Doc -> M (addr * pyval)) (key : string) (nd : addr)
    (additional : option (bool + @field Doc)) (schema schema' : dict)
    (h h' : store) :
  compile_additional compile_child key nd additional schema h
  = (Ok schema', h') ->
  additional_shape key additional schema schema'.
Proof.
  intros Hrun.
  destruct additional as [[b|f]|]; cbn [compile_additional] in Hrun; cbn.
  - by injection Hrun as <- <-.
  - bind_inv Hrun as p g1 H1. destruct p as [idefs ischema].
    injection Hrun as <- <-. by eexists.
  - by injection Hrun as <- <-.
Qed.

Lemma compile_own_fragment (f : @field Doc) (definitions : option addr)
    (h h' : store) (nd : addr) (fragment : pyval) :
  is_document_reference f = false ->
  compile f definitions h = (Ok (nd, fragment), h') ->
  exists schema : dict, fragment = PDict schema /\ own_fragment f schema.
Proof.
  intros Hdoc Hrun. subst compile.
  destruct f as
    [ cls b regex mi ma | b | cls b mo mi emi ma ema
    | b items mi ma u additional
    | b properties pattern_properties additional mi ma
    | b dc owner | cls b fields | b f ];
    cbn [get_definitions_and_schema] in Hrun; [| | | | |done| |].
  - injection Hrun as <- <- <-. eexists. split; [done|constructor].
  - injection Hrun as <- <- <-. eexists. split; [done|constructor].
  - injection Hrun as <- <- <-. eexists. split; [done|constructor].
  - bind_inv Hrun as p g1 H1. destruct p as [nested_definitions nested_schema].
    bind_inv Hrun as s2 g2 H2. injection Hrun as <- <- <-.
    eexists. split; [done|]. econstructor.
    by eapply compile_additional_shape.
  - rewrite run_new_dict in Hrun.
    bind_inv Hrun as s1 g1 H1. bind_inv Hrun as s2 g2 H2.
    bind_inv Hrun as s3 g3 H3. injection Hrun as <- <- <-.
    eexists. split; [done|].
    assert (mapping_shape "properties" properties
              (update {["type" := PStr "object"]}
                 (_get_common_schema_fields b)) s1) as Hs1.
    { destruct properties as [props|]; cbn.
      - bind_inv H1 as p g4 H4. destruct p as [pd ps].
        injection H1 as <- <-. exists ps. split; [|done].
        by eapply process_properties_dom.
      - by injection H1 as <- <-. }
    assert (mapping_shape "patternProperties" pattern_properties s1 s2)
      as Hs2.
    { destruct pattern_properties as [props|]; cbn.
      - bind_inv H2 as u g4 H4. bind_inv H2 as p g5 H5.
        destruct p as [pd ps]. injection H2 as <- <-.
        exists ps. split; [|done]. by eapply process_properties_dom.
      - by injection H2 as <- <-. }
    apply compile_additional_shape in H3.
    exact (own_dict _ _ _ _ _ _ _ _ _ Hs1 Hs2 H3).
  - rewrite run_new_dict in Hrun. bind_inv Hrun as one_of g1 H1.
    injection Hrun as <- <- <-. eexists. split; [done|].
    constructor. by eapply compile_sequence_length.
  - bind_inv Hrun as p g1 H1. destruct p as [fd fs].
    injection Hrun as <- <- <-. eexists. split; [done|]. constructor.
Qed.

Lemma lookup_update_l (schema other : dict) (k : string) :
  schema !! k = None -> update schema other !! k = other !! k.
Proof. intros Hk. unfold update. by apply lookup_union_l. Qed.

Lemma common_title (b : BaseField) :
  _get_common_schema_fields b !! "title" = PStr <$> title b.
Proof.
  unfold _get_common_schema_fields.
  destruct (title b), (description b), (choices b) as [[|]|],
    (default_is_not_none b); by lookup_simpl.
Qed.

Lemma common_description (b : BaseField) :
  _get_common_schema_fields b !! "description" = PStr <$> description b.
Proof.
  unfold _get_common_schema_fields.
  destruct (title b), (description b), (choices b) as [[|]|],
    (default_is_not_none b); by lookup_simpl.
Qed.

Lemma common_enum (b : BaseField) :
  _get_common_schema_fields b !! "enum"
  = match choices b with
    | Some (c :: cs) => Some (PList (c :: cs))
    | _ => None
    end.
Proof.
  unfold _get_common_schema_fields.
  destruct (title b), (description b), (choices b) as [[|]|],
    (default_is_not_none b); by lookup_simpl.
Qed.

Lemma common_default (b : BaseField) :
  _get_common_schema_fields b !! "default"
  = if default_is_not_none b then Some (default_ b) else None.
Proof.
  unfold _get_common_schema_fields.
  destruct (title b), (description b), (choices b) as [[|]|],
    (default_is_not_none b); by lookup_simpl.
Qed.

Ltac shape_cases :=
  repeat match goal with
    | H : additional_shape _ ?a _ _ |- _ =>
        destruct a as [[?|?]|]; cbn in H;
        [rewrite H; clear H | destruct H as [? ->] | rewrite H; clear H]
    | H : mapping_shape _ ?m _ _ |- _ =>
        destruct m as [?|]; cbn in H;
        [destruct H as (? & _ & ->) | rewrite H; clear H]
    end.

Ltac base_none :=
  repeat first
    [ rewrite lookup_insert_ne by done
    | rewrite lookup_singleton_ne by done ];
  done.

Ltac lookup_common :=
  repeat first
    [ rewrite lookup_insert_ne by done
    | rewrite lookup_set_if_not_none_ne by done
    | rewrite lookup_update_l by base_none ].

(** On the four common keywords, the dictionary a field builds agrees with
    [_get_common_schema_fields]: no class writes them itself. *)
Lemma own_fragment_common (f : @field Doc) (schema : dict) (k : string) :
  own_fragment f schema ->
  k ∈ ["title"; "description"; "enum"; "default"] ->
  schema !! k = _get_common_schema_fields (field_base f) !! k.
Proof.
  intros Hown Hk. rewrite !elem_of_cons in Hk.
  destruct Hk as [->|[->|[->|[->|Hk]]]]; [..|by apply elem_of_nil in Hk];
    destruct Hown as
      [ cls b regex mi ma | b | cls b mo mi emi ma ema
      | b items mi ma u additional nested schema Hadd
      | b properties pattern_properties additional mi ma s1 s2 s3 H1 H2 H3
      | cls b fields one_of Hlen | b f fs ];
    cbn [field_base];
    unfold string_schema, boolean_schema, number_schema, array_schema in *;
    shape_cases;
    try (destruct regex as [r|]; [destruct (str_truthy r)|];
         destruct (string_format cls));
    try destruct emi; try destruct ema; try destruct u;
    try destruct cls; by lookup_common.
Qed.

Lemma own_fragment_type (f : @field Doc) (schema : dict) :
  own_fragment f schema -> schema !! "type" = PStr <$> type_keyword f.
Proof.
  intros Hown.
  destruct Hown as
    [ cls b regex mi ma | b | cls b mo mi emi ma ema
    | b items mi ma u additional nested schema Hadd
    | b properties pattern_properties additional mi ma s1 s2 s3 H1 H2 H3
    | cls b fields one_of Hlen | b f fs ];
    cbn [type_keyword fmap option_fmap option_map];
    unfold string_schema, boolean_schema, number_schema, array_schema in *;
    shape_cases;
    try (destruct regex as [r|]; [destruct (str_truthy r)|];
         destruct (string_format cls));
    try destruct emi; try destruct ema; try destruct u;
    try destruct cls; by lookup_simpl.
Qed.

(** The fragment a field builds carries [title] and [description] exactly
    when they are set on the field, with the values as given; no class of
    field writes or removes them on its own. *)
Theorem fragment_title_description (f : @field Doc)
    (definitions : option addr) (h h' : store) (nd : addr)
    (fragment : pyval) :
  is_document_reference f = false ->
  compile f definitions h = (Ok (nd, fragment), h') ->
  exists schema : dict,
    fragment = PDict schema
    /\ schema !! "title" = PStr <$> title (field_base f)
    /\ schema !! "description" = PStr <$> description (field_base f).
Proof.
  intros Hdoc Hrun.
  destruct (compile_own_fragment f definitions h h' nd fragment Hdoc Hrun)
    as (schema & -> & Hown).
  exists schema. split; [done|]. split.
  - rewrite (own_fragment_common f schema "title" Hown)
      by (rewrite !elem_of_cons; auto 10).
    apply common_title.
  - rewrite (own_fragment_common f schema "description" Hown)
      by (rewrite !elem_of_cons; auto 10).
    apply common_description.
Qed.

(** [enum] is written only for choices that are not empty: no choices and an
    empty sequence give no keyword.  [default] is left out only when the
    attribute itself is None: a callable default is always written, with
    what it returns, None included. *)
Theorem fragment_enum_default (f : @field Doc)
    (definitions : option addr) (h h' : store) (nd : addr)
    (fragment : pyval) :
  is_document_reference f = false ->
  compile f definitions h = (Ok (nd, fragment), h') ->
  exists schema : dict,
    fragment = PDict schema
    /\ schema !! "enum"
       = match choices (field_base f) with
         | Some (c :: cs) => Some (PList (c :: cs))
         | _ => None
         end
    /\ schema !! "default"
       = match _default (field_base f) with
         | Plain d => if is_none d then None else Some d
         | Callable produce => Some (produce tt)
         end.
Proof.
  intros Hdoc Hrun.
  destruct (compile_own_fragment f definitions h h' nd fragment Hdoc Hrun)
    as (schema & -> & Hown).
  exists schema. split; [done|]. split.
  - rewrite (own_fragment_common f schema "enum" Hown)
      by (rewrite !elem_of_cons; auto 10).
    apply common_enum.
  - rewrite (own_fragment_common f schema "default" Hown)
      by (rewrite !elem_of_cons; auto 10).
    rewrite common_default. unfold default_is_not_none, default_.
    destruct (_default (field_base f)) as [d|produce]; [|done].
    by destruct (is_none d).
Qed.

(** String, boolean, number, array and object fields always carry their own
    [type]; one-of, any-of, all-of and negation fields carry none.  The
    common keywords cannot replace it. *)
Theorem fragment_type_keyword (f : @field Doc)
    (definitions : option addr) (h h' : store) (nd : addr)
    (fragment : pyval) :
  is_document_reference f = false ->
  compile f definitions h = (Ok (nd, fragment), h') ->
  exists schema : dict,
    fragment = PDict schema /\ schema !! "type" = PStr <$> type_keyword f.
Proof.
  intros Hdoc Hrun.
  destruct (compile_own_fragment f definitions h h' nd fragment Hdoc Hrun)
    as (schema & -> & Hown).
  exists schema. split; [done|]. by apply own_fragment_type.
Qed.

(** *** Objects and combinators *)

Lemma own_of_run (f : @field Doc) (definitions : option addr)
    (h h' : store) (nd : addr) (fragment : pyval) :
  compile f definitions h = (Ok (nd, fragment), h') ->
  is_document_reference f = false ->
  exists schema : dict, fragment = PDict schema /\ own_fragment f schema.
Proof. intros Hrun Hdoc. by eapply compile_own_fragment. Qed.

(** The compiled [properties] (and [patternProperties]) of an object field
    is a dictionary whose keys are exactly the keys of the mapping given to
    the field; a mapping that is None gives no keyword at all, an empty
    mapping gives the keyword with an empty dictionary. *)
Theorem dict_properties_keys (b : BaseField)
    (properties pattern_properties : option (list (string * @field Doc)))
    (additional : option (bool + @field Doc))
    (min_properties max_properties : pyval) (definitions : option addr)
    (h h' : store) (nd : addr) (fragment : pyval) :
  compile (DictField b properties pattern_properties additional
             min_properties max_properties) definitions h
  = (Ok (nd, fragment), h') ->
  exists schema : dict,
    fragment = PDict schema
    /\ match properties with
       | None => schema !! "properties" = None
       | Some props =>
           exists m : dict,
             schema !! "properties" = Some (PDict m)
             /\ dom m = list_to_set props.*1
       end
    /\ match pattern_properties with
       | None => schema !! "patternProperties" = None
       | Some props =>
           exists m : dict,
             schema !! "patternProperties" = Some (PDict m)
             /\ dom m = list_to_set props.*1
       end.
Proof.
  intros Hrun.
  destruct (own_of_run _ _ _ _ _ _ Hrun ltac:(reflexivity))
    as (schema & -> & Hown).
  exists schema. split; [done|].
  inversion Hown as
    [ | | | | b' p' pp' a' mi' ma' s1 s2 s3 H1 H2 H3 | | ]; subst.
  split.
  - destruct properties as [props|]; cbn in H1.
    + destruct H1 as (m & Hdom & ->). exists m. split; [|done].
      clear Hown. shape_cases; by lookup_simpl.
    + subst s1. clear Hown. shape_cases; by lookup_simpl.
  - destruct pattern_properties as [props|]; cbn in H2.
    + destruct H2 as (m & Hdom & ->). exists m. split; [|done].
      clear Hown. shape_cases; by lookup_simpl.
    + subst s2. clear Hown. shape_cases; by lookup_simpl.
Qed.

(** An additional-properties policy that is a boolean is written as that
    boolean, true as well as false; with no policy the keyword is absent. *)
Theorem dict_additional_properties_policy (b : BaseField)
    (properties pattern_properties : option (list (string * @field Doc)))
    (policy : option bool) (min_properties max_properties : pyval)
    (definitions : option addr) (h h' : store) (nd : addr)
    (fragment : pyval) :
  compile (DictField b properties pattern_properties (inl <$> policy)
             min_properties max_properties) definitions h
  = (Ok (nd, fragment), h') ->
  exists schema : dict,
    fragment = PDict schema
    /\ schema !! "additionalProperties" = PBool <$> policy.
Proof.
  intros Hrun.
  destruct (own_of_run _ _ _ _ _ _ Hrun ltac:(reflexivity))
    as (schema & -> & Hown).
  exists schema. split; [done|].
  inversion Hown as
    [ | | | | b' p' pp' a' mi' ma' s1 s2 s3 H1 H2 H3 | | ]; subst.
  clear Hown. destruct policy as [p|]; cbn in H3; subst s3;
    shape_cases; by lookup_simpl.
Qed.

(** The fragment of a one-of, any-of or all-of field holds, under the
    keyword of its class, a sequence with one fragment per child. *)
Theorem of_field_fragment_length (cls : of_class) (b : BaseField)
    (fields : list (@field Doc)) (definitions : option addr) (h h' : store)
    (nd : addr) (fragment : pyval) :
  compile (OfField cls b fields) definitions h = (Ok (nd, fragment), h') ->
  exists (schema : dict) (one_of : list pyval),
    fragment = PDict schema
    /\ schema !! _KEYWORD cls = Some (PList one_of)
    /\ length one_of = length fields.
Proof.
  intros Hrun.
  destruct (own_of_run _ _ _ _ _ _ Hrun ltac:(reflexivity))
    as (schema & -> & Hown).
  inversion Hown as [ | | | | | cls' b' fields' one_of Hlen | ]; subst.
  eexists _, one_of. split; [done|]. split; [|done].
  destruct cls; by lookup_simpl.
Qed.

(** *** Strings and numbers *)

(** When a string field of any class compiles, the delta is a new empty
    dictionary.  [pattern] is left out when there is no pattern and when the
    pattern is the empty string; [minLength] and [maxLength] are written for
    every value other than None, zero included; [format] is the one of the
    class. *)
Theorem string_field_keywords (cls : string_class) (b : BaseField)
    (regex : option string) (min_length max_length : pyval)
    (definitions : option addr) (h h' : store) (nd : addr)
    (fragment : pyval) :
  compile (StringField cls b regex min_length max_length) definitions h
  = (Ok (nd, fragment), h') ->
  exists schema : dict,
    fragment = PDict schema
    /\ h !! nd = None
    /\ h' = <[nd := ∅]> h
    /\ schema !! "pattern"
       = match regex with
         | Some (String c r) => Some (PStr (String c r))
         | _ => None
         end
    /\ schema !! "minLength"
       = (if is_none min_length then None else Some min_length)
    /\ schema !! "maxLength"
       = (if is_none max_length then None else Some max_length)
    /\ schema !! "format" = PStr <$> string_format cls.
Proof.
  intros Hrun. subst compile. cbn [get_definitions_and_schema] in Hrun.
  injection Hrun as <- <- <-. eexists. split; [reflexivity|].
  split; [apply not_elem_of_dom, is_fresh|]. split; [reflexivity|].
  unfold string_schema, set_if_not_none.
  destruct regex as [[|c r]|]; cbn [str_truthy];
    destruct (is_none min_length), (is_none max_length), cls;
    cbn [string_format fmap option_fmap option_map];
    repeat split; by lookup_simpl.
Qed.

(** When a number or integer field compiles, the delta is a new empty
    dictionary.  [multipleOf], [minimum] and [maximum] are written for every
    value other than None, zero included, and [exclusiveMaximum] only when
    its flag is set. *)
Theorem number_field_keywords (cls : number_class) (b : BaseField)
    (multiple_of minimum maximum : pyval)
    (exclusive_minimum exclusive_maximum : bool)
    (definitions : option addr) (h h' : store) (nd : addr)
    (fragment : pyval) :
  compile (NumberField cls b multiple_of minimum exclusive_minimum maximum
             exclusive_maximum) definitions h
  = (Ok (nd, fragment), h') ->
  exists schema : dict,
    fragment = PDict schema
    /\ h !! nd = None
    /\ h' = <[nd := ∅]> h
    /\ schema !! "multipleOf"
       = (if is_none multiple_of then None else Some multiple_of)
    /\ schema !! "minimum" = (if is_none minimum then None else Some minimum)
    /\ schema !! "maximum" = (if is_none maximum then None else Some maximum)
    /\ schema !! "exclusiveMaximum"
       = (if exclusive_maximum then Some (PBool true) else None).
Proof.
  intros Hrun. subst compile. cbn [get_definitions_and_schema] in Hrun.
  injection Hrun as <- <- <-. eexists. split; [reflexivity|].
  split; [apply not_elem_of_dom, is_fresh|]. split; [reflexivity|].
  unfold number_schema, set_if_not_none.
  destruct (is_none multiple_of), (is_none minimum), (is_none maximum),
    exclusive_minimum, exclusive_maximum;
    repeat split; by lookup_simpl.
Qed.

(** *** Trees without document references *)

Lemma grows_ret {A} (P : store -> Prop) (a : A) (Q : A -> store -> Prop) :
  (forall h, P h -> Q a h) -> grows P (mret a) Q.
Proof.
  intros HQ h r h' HP [= <- <-]. split; [done|]. intros ? [= <-]. by apply HQ.
Qed.

Lemma grows_lift {A} (P : store -> Prop) (r : res A) :
  grows P (lift r) (fun _ _ => True).
Proof. intros h r' h' HP [= <- <-]. by split. Qed.

Lemma grows_new_dict (P : store -> Prop) :
  grows P new_dict (fun l h => h !! l = Some ∅).
Proof.
  intros h r h' HP [= <- <-]. split.
  - apply insert_subseteq, not_elem_of_dom, is_fresh.
  - intros ? [= <-]. apply lookup_insert_eq.
Qed.

Lemma grows_dict_update_empty (P : store -> Prop) (target source : addr) :
  (forall h, P h -> h !! target = Some ∅ /\ h !! source = Some ∅) ->
  grows P (dict_update target source) (fun _ _ => True).
Proof.
  intros Hempty h r h' HP [= <- <-]. destruct (Hempty h HP) as [Ht Hs].
  unfold contents. rewrite Ht, Hs. cbn.
  rewrite (left_id_L ∅ (∪)), insert_id by done. by split.
Qed.

Lemma grows_bind {A B} (P : store -> Prop) (c : M A) (k : A -> M B)
    (Q : A -> store -> Prop) (R : B -> store -> Prop) :
  stable P ->
  grows P c Q ->
  (forall a, grows (fun h => P h /\ Q a h) (k a) R) ->
  grows P (c ≫= k) R.
Proof.
  intros HP Hc Hk h r h' HPh Hrun. rewrite run_bind in Hrun.
  destruct (c h) as [[a|e] h1] eqn:Hch.
  - destruct (Hc _ _ _ HPh Hch) as [Hsub HQ].
    destruct (Hk a h1 r h') as [Hsub' HR]; [split; eauto|done|].
    split; [by etrans|done].
  - injection Hrun as <- <-. destruct (Hc _ _ _ HPh Hch) as [Hsub _].
    split; [done|]. intros ? [=].
Qed.

Lemma grows_weaken {A} (P P' : store -> Prop) (c : M A)
    (Q Q' : A -> store -> Prop) :
  grows P c Q ->
  (forall h, P' h -> P h) ->
  (forall a h, Q a h -> Q' a h) ->
  grows P' c Q'.
Proof.
  intros Hc HP HQ h r h' HPh Hrun.
  destruct (Hc h r h' (HP _ HPh) Hrun) as [Hsub Hres].
  split; [done|]. intros a ->. by apply HQ, Hres.
Qed.

Lemma stable_empty_at (l : addr) : stable (fun h => h !! l = Some ∅).
Proof. intros h h' Hsub Hl. by eapply lookup_weaken. Qed.

Lemma stable_and (P Q : store -> Prop) :
  stable P -> stable Q -> stable (fun h => P h /\ Q h).
Proof. intros HP HQ h h' Hsub [? ?]. split; eauto. Qed.

Lemma stable_true : stable (fun _ => True).
Proof. done. Qed.

Ltac stable_tac :=
  repeat first
    [ apply stable_true | apply stable_empty_at | apply stable_and ].

Section GrowthChildren.

Variable compile_child : @field Doc -> M (addr * pyval).

Lemma grows_compile_sequence (nd : addr) (l : list field) :
  Forall (fun f => adds_empty (compile_child f)) l ->
  grows (fun h => h !! nd = Some ∅) (compile_sequence compile_child nd l)
    (fun _ _ => True).
Proof.
  intros Hl. induction Hl as [|f l Hf Hl IH]; cbn [compile_sequence].
  - by apply grows_ret.
  - eapply grows_bind; [stable_tac| |].
    { eapply grows_weaken; [exact Hf|done|]. intros a h Ha. exact Ha. }
    intros [idefs ischema].
    eapply grows_bind;
      [stable_tac|apply grows_dict_update_empty; by intros h [? ?]|].
    intros [].
    eapply grows_bind; [stable_tac| |].
    { eapply grows_weaken; [exact IH| |done]. by intros h [[? ?] ?]. }
    intros rest. by apply grows_ret.
Qed.

Lemma grows_process_loop (nd : addr) (props : list (string * field))
    (schema : dict) :
  Forall (fun p => adds_empty (compile_child p.2)) props ->
  grows (fun h => h !! nd = Some ∅)
    (process_loop compile_child nd schema props) (fun _ _ => True).
Proof.
  intros Hl. revert schema.
  induction Hl as [|[prop f] l Hf Hl IH]; intros schema; cbn [process_loop].
  - by apply grows_ret.
  - eapply grows_bind; [stable_tac| |].
    { eapply grows_weaken; [exact Hf|done|]. intros a h Ha. exact Ha. }
    intros [fdefs fschema].
    eapply grows_bind;
      [stable_tac|apply grows_dict_update_empty; by intros h [? ?]|].
    intros []. eapply grows_weaken; [apply IH| |done]. by intros h [[? ?] ?].
Qed.

Lemma grows_process_properties (P : store -> Prop)
    (props : list (string * field)) :
  stable P ->
  Forall (fun p => adds_empty (compile_child p.2)) props ->
  grows P (_process_properties compile_child props)
    (fun p h => h !! p.1 = Some ∅).
Proof.
  intros HP Hl. unfold _process_properties.
  eapply grows_bind; [done|apply grows_new_dict|]. intros nd.
  eapply grows_bind; [apply stable_and; [done|stable_tac]| |].
  { eapply grows_weaken; [by apply grows_process_loop| |done].
    by intros h [_ ?]. }
  intros schema. apply grows_ret. by intros h [[_ ?] _].
Qed.

Lemma grows_compile_additional (key : string) (nd : addr)
    (additional : option (bool + field)) (schema : dict) :
  additional_field (fun f => adds_empty (compile_child f)) additional ->
  grows (fun h => h !! nd = Some ∅)
    (compile_additional compile_child key nd additional schema)
    (fun _ _ => True).
Proof.
  intros Hadd. destruct additional as [[b|f]|]; cbn [compile_additional].
  - by apply grows_ret.
  - eapply grows_bind; [stable_tac| |].
    { eapply grows_weaken; [exact Hadd|done|]. intros a h Ha. exact Ha. }
    intros [idefs ischema].
    eapply grows_bind;
      [stable_tac|apply grows_dict_update_empty; by intros h [? ?]|].
    intros []. by apply grows_ret.
  - by apply grows_ret.
Qed.

End GrowthChildren.

Lemma Forall_forallb_impl {A} (P : A -> Prop) (g : A -> bool) (l : list A) :
  Forall (fun x => g x = true -> P x) l ->
  forallb g l = true ->
  Forall P l.
Proof.
  induction 1 as [|x l Hx _ IH]; cbn [forallb]; [by constructor|].
  intros [Hg Hl]%andb_true_iff. constructor; [by apply Hx|by apply IH].
Qed.

Ltac pre_tac := intros; cbn in *; destruct_and?; eauto.

Lemma compile_adds_empty (f : @field Doc) (definitions : option addr) :
  document_free f = true -> adds_empty (compile f definitions).
Proof.
  subst compile. unfold adds_empty.
  induction f as
    [ | | | b items mi ma u additional Hitems Hadd
    | b properties pattern_properties additional mi ma Hprops Hpat Hadd
    | b dc owner | cls b fields Hfields | b f IH ] using field_tree_ind;
    cbn [get_definitions_and_schema document_free]; intros Hfree.
  - eapply grows_bind; [stable_tac|apply grows_new_dict|].
    intros nd. apply grows_ret. pre_tac.
  - eapply grows_bind; [stable_tac|apply grows_new_dict|].
    intros nd. apply grows_ret. pre_tac.
  - eapply grows_bind; [stable_tac|apply grows_new_dict|].
    intros nd. apply grows_ret. pre_tac.
  - apply andb_true_iff in Hfree as [Hi Ha].
    eapply grows_bind with (Q := fun p h => h !! p.1 = Some ∅);
      [stable_tac| |].
    + destruct items as [item|l]; [by apply Hitems|].
      eapply grows_bind; [stable_tac|apply grows_new_dict|]. intros nd.
      eapply grows_bind; [stable_tac| |].
      { eapply grows_weaken;
          [apply grows_compile_sequence;
           by eapply Forall_forallb_impl; [exact Hitems|]
          |pre_tac|done]. }
      intros ss. apply grows_ret. pre_tac.
    + intros [nd nested_schema].
      eapply grows_bind; [stable_tac| |].
      { eapply grows_weaken;
          [apply grows_compile_additional with (nd := nd)|pre_tac|done].
        destruct additional as [[?|af]|]; cbn in *; unfold adds_empty; auto. }
      intros schema. apply grows_ret. pre_tac.
  - apply andb_true_iff in Hfree as [Hfree Ha].
    apply andb_true_iff in Hfree as [Hp Hpp].
    eapply grows_bind; [stable_tac|apply grows_new_dict|]. intros nd.
    eapply grows_bind with (Q := fun _ _ => True); [stable_tac| |].
    { destruct properties as [props|]; [|by apply grows_ret].
      eapply grows_bind; [stable_tac| |].
      { apply grows_process_properties; [stable_tac|].
        by eapply Forall_forallb_impl; [exact Hprops|]. }
      intros [pd ps].
      eapply grows_bind;
        [stable_tac|apply grows_dict_update_empty; pre_tac|].
      intros []. by apply grows_ret. }
    intros schema.
    eapply grows_bind with (Q := fun _ _ => True); [stable_tac| |].
    { destruct pattern_properties as [props|]; [|by apply grows_ret].
      eapply grows_bind; [stable_tac|apply grows_lift|]. intros [].
      eapply grows_bind; [stable_tac| |].
      { apply grows_process_properties; [stable_tac|].
        by eapply Forall_forallb_impl; [exact Hpat|]. }
      intros [pd ps].
      eapply grows_bind;
        [stable_tac|apply grows_dict_update_empty; pre_tac|].
      intros []. by apply grows_ret. }
    intros schema'.
    eapply grows_bind; [stable_tac| |].
    { eapply grows_weaken;
        [apply grows_compile_additional with (nd := nd)|pre_tac|done].
      destruct additional as [[?|af]|]; cbn in *; unfold adds_empty; auto. }
    intros schema''. apply grows_ret. pre_tac.
  - done.
  - eapply grows_bind; [stable_tac|apply grows_new_dict|]. intros nd.
    eapply grows_bind; [stable_tac| |].
    { eapply grows_weaken;
        [apply grows_compile_sequence;
         by eapply Forall_forallb_impl; [exact Hfields|]
        |pre_tac|done]. }
    intros one_of. apply grows_ret. pre_tac.
  - eapply grows_bind; [stable_tac|by apply IH|].
    intros [fd fs]. apply grows_ret. pre_tac.
Qed.

(** Compiling a tree that holds no document reference never writes to a
    dictionary that exists: whether it returns or raises, every dictionary
    of the store is left with its contents and only new ones are added.  The
    delta it returns is empty. *)
Theorem document_free_compile_store (f : @field Doc)
    (definitions : option addr) (h h' : store) (r : res (addr * pyval)) :
  document_free f = true ->
  compile f definitions h = (r, h') ->
  h ⊆ h'
  /\ forall (nd : addr) (fragment : pyval),
       r = Ok (nd, fragment) -> h' !! nd = Some ∅.
Proof.
  intros Hfree Hrun.
  destruct (compile_adds_empty f definitions Hfree h r h' I Hrun)
    as [Hsub Hnd].
  split; [done|]. intros nd fragment ->. exact (Hnd (nd, fragment) eq_refl).
Qed.

(** For a tree that holds no document reference, [get_schema] returns the
    compiled fragment as it is: no [definitions] keyword is added. *)
Theorem get_schema_document_free (f : @field Doc) (h h' : store) (nd : addr)
    (fragment : pyval) :
  document_free f = true ->
  compile f None h = (Ok (nd, fragment), h') ->
  get_schema re_compile_error registered get_definition_id module_of
    Document_get_definitions_and_schema f h
  = (Ok fragment, h').
Proof.
  intros Hfree Hrun.
  destruct (compile_adds_empty f None Hfree h _ h' I Hrun) as [_ Hnd].
  specialize (Hnd (nd, fragment) eq_refl). cbn in Hnd.
  subst compile. unfold get_schema.
  rewrite run_bind, Hrun, run_read. unfold contents. by rewrite Hnd.
Qed.

(** **** When compilation returns *)

Lemma succeeds_ret {A} (a : A) : succeeds (mret a).
Proof. intros h. by exists a, h. Qed.

Lemma succeeds_new_dict : succeeds new_dict.
Proof. intros h. by eexists _, _. Qed.

Lemma succeeds_dict_update (target source : addr) :
  succeeds (dict_update target source).
Proof. intros h. by eexists _, _. Qed.

Lemma succeeds_bind {A B} (c : M A) (k : A -> M B) :
  succeeds c -> (forall a, succeeds (k a)) -> succeeds (c ≫= k).
Proof.
  intros Hc Hk h. destruct (Hc h) as (a & h1 & Hrun).
  destruct (Hk a h1) as (b & h2 & Hrun'). exists b, h2.
  by rewrite run_bind, Hrun.
Qed.

Lemma validate_keys_valid (props : list (string * @field Doc)) :
  forallb (fun p => valid_key re_compile_error p.1) props = true ->
  validate_keys re_compile_error props.*1 = Ok tt.
Proof.
  induction props as [|[k f] props IH]; cbn [forallb fmap list_fmap];
    [done|].
  intros [Hk Hrest]%andb_true_iff. cbn [validate_keys].
  unfold _validate_regex. unfold valid_key in Hk. cbn in Hk |- *.
  destruct (re_compile_error k); [done|]. by apply IH.
Qed.

Lemma Forall_forallb_impl2 {A} (P : A -> Prop) (g1 g2 : A -> bool)
    (l : list A) :
  Forall (fun x => g1 x = true -> g2 x = true -> P x) l ->
  forallb g1 l = true ->
  forallb g2 l = true ->
  Forall P l.
Proof.
  induction 1 as [|x l Hx _ IH]; cbn [forallb]; [by constructor|].
  intros [H1 Hl1]%andb_true_iff [H2 Hl2]%andb_true_iff.
  constructor; [by apply Hx|by apply IH].
Qed.

Section SuccessChildren.

Variable compile_child : @field Doc -> M (addr * pyval).

Lemma succeeds_compile_sequence (nd : addr) (l : list field) :
  Forall (fun f => succeeds (compile_child f)) l ->
  succeeds (compile_sequence compile_child nd l).
Proof.
  induction 1 as [|f l Hf _ IH]; cbn [compile_sequence].
  - apply succeeds_ret.
  - apply succeeds_bind; [done|]. intros [idefs ischema].
    apply succeeds_bind; [apply succeeds_dict_update|]. intros [].
    apply succeeds_bind; [done|]. intros rest. apply succeeds_ret.
Qed.

Lemma succeeds_process_properties (props : list (string * field)) :
  Forall (fun p => succeeds (compile_child p.2)) props ->
  succeeds (_process_properties compile_child props).
Proof.
  intros Hl. unfold _process_properties.
  apply succeeds_bind; [apply succeeds_new_dict|]. intros nd.
  apply succeeds_bind; [|intros schema; apply succeeds_ret].
  generalize (∅ : dict).
  induction Hl as [|[prop f] l Hf _ IH]; intros schema; cbn [process_loop].
  - apply succeeds_ret.
  - apply succeeds_bind; [done|]. intros [fdefs fschema].
    apply succeeds_bind; [apply succeeds_dict_update|]. intros []. apply IH.
Qed.

Lemma succeeds_compile_additional (key : string) (nd : addr)
    (additional : option (bool + field)) (schema : dict) :
  additional_field (fun f => succeeds (compile_child f)) additional ->
  succeeds (compile_additional compile_child key nd additional schema).
Proof.
  intros Hadd. destruct additional as [[b|f]|]; cbn [compile_additional].
  - apply succeeds_ret.
  - apply succeeds_bind; [done|]. intros [idefs ischema].
    apply succeeds_bind; [apply succeeds_dict_update|]. intros [].
    apply succeeds_ret.
  - apply succeeds_ret.
Qed.

End SuccessChildren.

Lemma compile_succeeds (f : @field Doc) (definitions : option addr) :
  document_free f = true ->
  patterns_valid re_compile_error f = true ->
  succeeds (compile f definitions).
Proof.
  subst compile.
  induction f as
    [ | | | b items mi ma u additional Hitems Hadd
    | b properties pattern_properties additional mi ma Hprops Hpat Hadd
    | b dc owner | cls b fields Hfields | b f IH ] using field_tree_ind;
    cbn [get_definitions_and_schema document_free patterns_valid];
    intros Hfree Hvalid.
  - apply succeeds_bind; [apply succeeds_new_dict|]. intros nd.
    apply succeeds_ret.
  - apply succeeds_bind; [apply succeeds_new_dict|]. intros nd.
    apply succeeds_ret.
  - apply succeeds_bind; [apply succeeds_new_dict|]. intros nd.
    apply succeeds_ret.
  - apply andb_true_iff in Hfree as [Hi Ha].
    apply andb_true_iff in Hvalid as [Hvi Hva].
    apply succeeds_bind.
    + destruct items as [item|l]; [by apply Hitems|].
      apply succeeds_bind; [apply succeeds_new_dict|]. intros nd.
      apply succeeds_bind; [|intros ss; apply succeeds_ret].
      apply succeeds_compile_sequence.
      by eapply Forall_forallb_impl2; [exact Hitems| |].
    + intros [nd nested_schema].
      apply succeeds_bind; [|intros schema; apply succeeds_ret].
      apply succeeds_compile_additional.
      destruct additional as [[?|af]|]; cbn in *; auto.
  - apply andb_true_iff in Hfree as [Hfree Ha].
    apply andb_true_iff in Hfree as [Hp Hpp].
    apply andb_true_iff in Hvalid as [Hvalid Hva].
    apply andb_true_iff in Hvalid as [Hvalid Hvpp].
    apply andb_true_iff in Hvalid as [Hvp Hkeys].
    apply succeeds_bind; [apply succeeds_new_dict|]. intros nd.
    apply succeeds_bind.
    { destruct properties as [props|]; [|apply succeeds_ret].
      apply succeeds_bind.
      - apply succeeds_process_properties.
        by eapply Forall_forallb_impl2; [exact Hprops| |].
      - intros [pd ps].
        apply succeeds_bind; [apply succeeds_dict_update|]. intros [].
        apply succeeds_ret. }
    intros schema. apply succeeds_bind.
    { destruct pattern_properties as [props|]; [|apply succeeds_ret].
      rewrite (validate_keys_valid props Hkeys).
      apply succeeds_bind; [apply (succeeds_ret tt)|]. intros [].
      apply succeeds_bind.
      - apply succeeds_process_properties.
        by eapply Forall_forallb_impl2; [exact Hpat| |].
      - intros [pd ps].
        apply succeeds_bind; [apply succeeds_dict_update|]. intros [].
        apply succeeds_ret. }
    intros schema'.
    apply succeeds_bind; [|intros schema''; apply succeeds_ret].
    apply succeeds_compile_additional.
    destruct additional as [[?|af]|]; cbn in *; auto.
  - done.
  - apply succeeds_bind; [apply succeeds_new_dict|]. intros nd.
    apply succeeds_bind; [|intros one_of; apply succeeds_ret].
    apply succeeds_compile_sequence.
    by eapply Forall_forallb_impl2; [exact Hfields| |].
  - apply succeeds_bind; [by apply IH|]. intros [fd fs]. apply succeeds_ret.
Qed.

(** Compilation can raise only through a document reference, through a
    pattern-property key or through a callable [default] or [choices]: a
    tree that holds no document reference and no such callable, and whose
    pattern keys all compile, always compiles, to a dictionary. *)
Theorem compile_never_raises (f : @field Doc) (definitions : option addr)
    (h : store) :
  document_free f = true ->
  producer_free f = true ->
  patterns_valid re_compile_error f = true ->
  exists (nd : addr) (schema : dict) (h' : store),
    compile f definitions h = (Ok (nd, PDict schema), h').
Proof.
  intros Hfree _ Hvalid.
  destruct (compile_succeeds f definitions Hfree Hvalid h)
    as ([nd fragment] & h' & Hrun).
  assert (is_document_reference f = false) as Hdoc by by destruct f.
  destruct (compile_own_fragment f definitions h h' nd fragment Hdoc Hrun)
    as (schema & -> & _).
  by exists nd, schema, h'.
Qed.

(** **** Independence from the mapping and from the store *)

Lemma agree_ret {A B} (proj : A -> B) (a a' : A) :
  proj a = proj a' -> agree proj (mret a) (mret a').
Proof. intros Hp h h'. exact Hp. Qed.

Lemma agree_lift {A} (r : res A) : agree id (lift r) (lift r).
Proof. intros h h'. by destruct r. Qed.

Lemma agree_new_dict : agree (fun _ : addr => tt) new_dict new_dict.
Proof. by intros h h'. Qed.

Lemma agree_dict_update (t s t' s' : addr) :
  agree (fun _ : unit => tt) (dict_update t s) (dict_update t' s').
Proof. by intros h h'. Qed.

Lemma agree_bind {A B C D} (proj : A -> B) (proj' : C -> D) (c c' : M A)
    (k k' : A -> M C) :
  agree proj c c' ->
  (forall a a', proj a = proj a' -> agree proj' (k a) (k' a')) ->
  agree proj' (c ≫= k) (c' ≫= k').
Proof.
  intros Hc Hk h h'. rewrite !run_bind. specialize (Hc h h').
  destruct (c h) as [[a|e] h1], (c' h') as [[a'|e'] h1']; cbn in Hc;
    try done.
  by apply Hk.
Qed.

Section AgreeChildren.

Variables compile_child compile_child' : @field Doc -> M (addr * pyval).

Lemma agree_compile_sequence (nd nd' : addr) (l : list field) :
  Forall (fun f => agree snd (compile_child f) (compile_child' f)) l ->
  agree id (compile_sequence compile_child nd l)
    (compile_sequence compile_child' nd' l).
Proof.
  induction 1 as [|f l Hf _ IH]; cbn [compile_sequence].
  - by apply agree_ret.
  - eapply agree_bind; [exact Hf|]. intros [d1 s1] [d2 s2] Hs. cbn in Hs.
    subst s2.
    eapply agree_bind; [apply agree_dict_update|]. intros [] [] _.
    eapply agree_bind; [exact IH|]. intros rest rest' Hrest. cbn in Hrest.
    subst rest'. by apply agree_ret.
Qed.

Lemma agree_process_properties (props : list (string * field)) :
  Forall (fun p => agree snd (compile_child p.2) (compile_child' p.2)) props ->
  agree snd (_process_properties compile_child props)
    (_process_properties compile_child' props).
Proof.
  intros Hl. unfold _process_properties.
  eapply agree_bind; [apply agree_new_dict|]. intros nd nd' _.
  eapply agree_bind with (proj := id).
  - generalize (∅ : dict).
    induction Hl as [|[prop f] l Hf _ IH]; intros schema; cbn [process_loop].
    + by apply agree_ret.
    + eapply agree_bind; [exact Hf|]. intros [d1 s1] [d2 s2] Hs. cbn in Hs.
      subst s2.
      eapply agree_bind; [apply agree_dict_update|]. intros [] [] _.
      apply IH.
  - intros schema schema' Hs. cbn in Hs. subst schema'. by apply agree_ret.
Qed.

Lemma agree_compile_additional (key : string) (nd nd' : addr)
    (additional : option (bool + field)) (schema : dict) :
  additional_field
    (fun f => agree snd (compile_child f) (compile_child' f)) additional ->
  agree id (compile_additional compile_child key nd additional schema)
    (compile_additional compile_child' key nd' additional schema).
Proof.
  intros Hadd. destruct additional as [[b|f]|]; cbn [compile_additional].
  - by apply agree_ret.
  - eapply agree_bind; [exact Hadd|]. intros [d1 s1] [d2 s2] Hs. cbn in Hs.
    subst s2.
    eapply agree_bind; [apply agree_dict_update|]. intros [] [] _.
    by apply agree_ret.
  - by apply agree_ret.
Qed.

End AgreeChildren.

Lemma compile_agree (f : @field Doc) (definitions definitions' : option addr) :
  document_free f = true ->
  agree snd (compile f definitions) (compile f definitions').
Proof.
  subst compile.
  induction f as
    [ | | | b items mi ma u additional Hitems Hadd
    | b properties pattern_properties additional mi ma Hprops Hpat Hadd
    | b dc owner | cls b fields Hfields | b f IH ] using field_tree_ind;
    cbn [get_definitions_and_schema document_free]; intros Hfree.
  - eapply agree_bind; [apply agree_new_dict|]. intros nd nd' _.
    by apply agree_ret.
  - eapply agree_bind; [apply agree_new_dict|]. intros nd nd' _.
    by apply agree_ret.
  - eapply agree_bind; [apply agree_new_dict|]. intros nd nd' _.
    by apply agree_ret.
  - apply andb_true_iff in Hfree as [Hi Ha].
    eapply agree_bind with (proj := snd).
    + destruct items as [item|l]; [by apply Hitems|].
      eapply agree_bind; [apply agree_new_dict|]. intros nd nd' _.
      eapply agree_bind with (proj := id).
      * apply agree_compile_sequence.
        by eapply Forall_forallb_impl; [exact Hitems|].
      * intros ss ss' Hs. cbn in Hs. subst ss'. by apply agree_ret.
    + intros [nd s] [nd' s'] Hs. cbn in Hs. subst s'.
      eapply agree_bind with (proj := id).
      * apply agree_compile_additional.
        destruct additional as [[?|af]|]; cbn in *; auto.
      * intros schema schema' Hs. cbn in Hs. subst schema'.
        by apply agree_ret.
  - apply andb_true_iff in Hfree as [Hfree Ha].
    apply andb_true_iff in Hfree as [Hp Hpp].
    eapply agree_bind; [apply agree_new_dict|]. intros nd nd' _.
    eapply agree_bind with (proj := id).
    { destruct properties as [props|]; [|by apply agree_ret].
      eapply agree_bind with (proj := snd).
      - apply agree_process_properties.
        by eapply Forall_forallb_impl; [exact Hprops|].
      - intros [pd ps] [pd' ps'] Hs. cbn in Hs. subst ps'.
        eapply agree_bind; [apply agree_dict_update|]. intros [] [] _.
        by apply agree_ret. }
    intros schema schema0 Hs. cbn in Hs. subst schema0.
    eapply agree_bind with (proj := id).
    { destruct pattern_properties as [props|]; [|by apply agree_ret].
      eapply agree_bind; [apply agree_lift|]. intros [] [] _.
      eapply agree_bind with (proj := snd).
      - apply agree_process_properties.
        by eapply Forall_forallb_impl; [exact Hpat|].
      - intros [pd ps] [pd' ps'] Hs. cbn in Hs. subst ps'.
        eapply agree_bind; [apply agree_dict_update|]. intros [] [] _.
        by apply agree_ret. }
    intros schema' schema0 Hs. cbn in Hs. subst schema0.
    eapply agree_bind with (proj := id).
    { apply agree_compile_additional.
      destruct additional as [[?|af]|]; cbn in *; auto. }
    intros schema'' schema0 Hs. cbn in Hs. subst schema0. by apply agree_ret.
  - done.
  - eapply agree_bind; [apply agree_new_dict|]. intros nd nd' _.
    eapply agree_bind with (proj := id).
    + apply agree_compile_sequence.
      by eapply Forall_forallb_impl; [exact Hfields|].
    + intros one_of one_of' Hs. cbn in Hs. subst one_of'. by apply agree_ret.
  - eapply agree_bind; [by apply IH|]. intros [fd fs] [fd' fs'] Hs.
    cbn in Hs. subst fs'. by apply agree_ret.
Qed.

(** The fragment of a tree that holds no document reference and no callable
    [default] or [choices] does not depend on the definitions mapping
    passed to compile nor on the dictionaries that exist: two calls return
    the same fragment, or raise the same exception. *)
Theorem document_free_outcome_fixed (f : @field Doc)
    (definitions definitions' : option addr) (h h' : store) :
  document_free f = true ->
  producer_free f = true ->
  outcome (compile f definitions h) = outcome (compile f definitions' h').
Proof.
  intros Hfree _.
  pose proof (compile_agree f definitions definitions' Hfree h h') as Hagree.
  unfold outcome.
  destruct (compile f definitions h) as [[[nd s]|e] h1],
    (compile f definitions' h') as [[[nd' s']|e'] h1']; cbn in *;
    try done; by subst.
Qed.

(** *** Negation and the order of alternatives *)

(** A negation field compiles its child: the child's fragment is written
    under [not] as it is, and the delta that is returned is the very
    dictionary the child returned. *)
Theorem not_field_fragment (b : BaseField) (child : @field Doc)
    (definitions : option addr) (h h' : store) (nd : addr)
    (child_schema : pyval) :
  compile child definitions h = (Ok (nd, child_schema), h') ->
  exists schema : dict,
    compile (NotField b child) definitions h = (Ok (nd, PDict schema), h')
    /\ schema !! "not" = Some child_schema
    /\ schema !! "type" = None.
Proof.
  intros Hchild. subst compile. cbn [get_definitions_and_schema].
  rewrite run_bind, Hchild. eexists. split; [reflexivity|].
  split; by lookup_simpl.
Qed.



End Properties.

Lemma string_pattern_minlength_fragment_witness :
  let f := StringField StringField_ base_defaults (Some "^[a-z]+$") (PInt 1)
             PNone in
  StringField_init Demo.re_compile_error StringField_ (Some "^[a-z]+$")
    (PInt 1) PNone base_defaults = Ok f
  /\ (Demo.compile f None ∅).1
     = Ok (1%positive,
           PDict {["type" := PStr "string"; "pattern" := PStr "^[a-z]+$";
                   "minLength" := PInt 1]}).
Proof.
  split; [reflexivity|].
  pose proof (string_pattern_minlength_fragment Demo.re_compile_error
    Demo.registered Demo.get_definition_id Demo.module_of
    Demo.Document_get_definitions_and_schema _ None ∅ eq_refl) as [Hc _].
  unfold Demo.compile. rewrite Hc. reflexivity.
Defined.

Lemma document_field_known_definition_witness :
  let h : store := {[3%positive := {[Demo.get_definition_id Demo.User
                                      := Demo.pointer "app.users.User"]}]} in
  Demo.compile (DocumentField base_defaults (inl "User") None)
    (Some 3%positive) h
  = (Ok (fresh (dom h), Demo.pointer "app.users.User"),
     <[fresh (dom h) := ∅]> h).
Proof.
  intros h.
  refine (proj1 (document_field_known_definition Demo.re_compile_error
    Demo.registered Demo.get_definition_id Demo.module_of
    Demo.Document_get_definitions_and_schema base_defaults (inl "User") None
    Demo.User 3%positive h _ (Demo.pointer "app.users.User") _ _ _));
    reflexivity.
Defined.

(** C1 as stated fails: the mapping may hold a full schema under the id,
    and then that schema, which is no pointer, is the fragment. *)
Lemma document_field_known_definition_not_pointer :
  let h : store := {[3%positive := {[Demo.get_definition_id Demo.User
                                      := PDict {["type" := PStr "object"]}]}]} in
  let fragment := PDict {["type" := PStr "object"]} in
  exists (nd : addr) (h' : store),
    Demo.compile (DocumentField base_defaults (inr Demo.User) None)
      (Some 3%positive) h = (Ok (nd, fragment), h')
    /\ h' !! nd = Some ∅
    /\ ~ is_pointer fragment.
Proof.
  intros h fragment. exists (fresh (dom h)), (<[fresh (dom h) := ∅]> h).
  split; [|split].
  - vm_compute. reflexivity.
  - apply lookup_insert_eq.
  - intros [target Ht]. subst fragment.
    apply (f_equal (fun v => match v with
                             | PDict m => m !! "type"
                             | _ => None
                             end)) in Ht.
    vm_compute in Ht. discriminate.
Qed.

Lemma dict_walk_two_primitive_properties_witness :
  let self : @field Demo.doc :=
    DictField base_defaults
      (Some [("ok", BooleanField base_defaults); ("name", Demo.name_field)])
      None None PNone PNone in
  Demo.traverse self false []
  = ([self; BooleanField base_defaults; Demo.name_field], None).
Proof.
  exact (dict_walk_two_primitive_properties Demo.registered Demo.module_of
    Demo.Document_walk base_defaults "ok" "name" (BooleanField base_defaults)
    Demo.name_field None PNone PNone false [] eq_refl eq_refl).
Defined.

(** C8 as stated fails: a property that has children contributes them
    too, so two declared properties can give more than three nodes. *)
Lemma dict_walk_two_properties_four_nodes :
  let tags : @field Demo.doc :=
    ArrayField base_defaults (inl Demo.name_field) PNone PNone false None in
  let self : @field Demo.doc :=
    DictField base_defaults
      (Some [("tags", tags); ("name", Demo.name_field)])
      None None PNone PNone in
  Demo.traverse self false []
  = ([self; tags; Demo.name_field; Demo.name_field], None)
  /\ length (Demo.traverse self false []).1 <> 3.
Proof. split; [reflexivity|]. cbn. lia. Qed.

Lemma array_pair_items_fragment_witness :
  exists (schema : dict) (h' : store),
    Demo.compile
      (ArrayField base_defaults
         (inr [Demo.name_field; BooleanField base_defaults]) PNone PNone false
         (Some (inl false))) None ∅
    = (Ok (1%positive, PDict schema), h')
    /\ schema !! "items"
       = Some (PList [PDict {["type" := PStr "string"]};
                      PDict {["type" := PStr "boolean"]}])
    /\ schema !! "additionalItems" = Some (PBool false).
Proof.
  destruct (array_pair_items_fragment Demo.re_compile_error Demo.registered
    Demo.get_definition_id Demo.module_of
    Demo.Document_get_definitions_and_schema base_defaults Demo.name_field
    (BooleanField base_defaults) PNone PNone false None ∅ _ _ _ _ _ _
    eq_refl eq_refl) as (schema & Hc & Hitems & Hadd).
  exists schema. eexists. split; [exact Hc|]. split; [exact Hitems|exact Hadd].
Defined.



Lemma Demo_document_separate (d : addr) (m : dict) (doc : Demo.doc) :
  separate d m (Demo.Document_get_definitions_and_schema doc (Some d)).
Proof.
  unfold separate, Demo.Document_get_definitions_and_schema.
  eapply frames_bind; [apply frames_new_dict|]. intros nd Hnd.
  eapply frames_bind; [by apply frames_dict_setitem|]. intros _ _.
  by apply frames_ret.
Qed.

Lemma compile_leaves_definitions_unchanged_witness :
  let m : dict := {["app.groups.Group" := Demo.pointer "app.groups.Group"]} in
  let h : store := {[1%positive := m]} in
  let f : @field Demo.doc :=
    ArrayField base_defaults
      (inl (DocumentField base_defaults (inr Demo.User) None)) PNone PNone
      false (Some (inr (DocumentField base_defaults (inr Demo.Group) None))) in
  exists (nd : addr) (fragment : pyval) (h' : store),
    Demo.compile f (Some 1%positive) h = (Ok (nd, fragment), h')
    /\ h' !! 1%positive = Some m
    /\ nd <> 1%positive.
Proof.
  intros m h f.
  destruct (Demo.compile f (Some 1%positive) h) as [r h'] eqn:Hrun.
  destruct (compile_leaves_definitions_unchanged Demo.re_compile_error
    Demo.registered Demo.get_definition_id Demo.module_of
    Demo.Document_get_definitions_and_schema f 1%positive m h r h'
    (Demo_document_separate 1%positive m) eq_refl Hrun) as [Hkept Hnd].
  vm_compute in Hrun. injection Hrun as <- <-.
  eexists _, _, _. split; [reflexivity|]. split; [exact Hkept|].
  eapply Hnd. reflexivity.
Defined.

Lemma required_never_compiled_witness :
  let fragment := PDict {["type" := PStr "string"]} in
  Demo.compile (with_required true Demo.name_field) None ∅
  = (Ok (1%positive, fragment), <[1%positive := ∅]> ∅)
  /\ exists schema : dict,
       fragment = PDict schema /\ schema !! "required" = None.
Proof.
  intros fragment.
  assert (Demo.compile Demo.name_field None ∅
          = (Ok (1%positive, fragment), <[1%positive := ∅]> ∅)) as Hrun
    by reflexivity.
  destruct (required_never_compiled Demo.re_compile_error Demo.registered
    Demo.get_definition_id Demo.module_of
    Demo.Document_get_definitions_and_schema Demo.name_field true None ∅ _ _
    _ Hrun) as (_ & Hc & Hkey).
  split; [exact Hc|]. exact (Hkey eq_refl).
Defined.

Lemma document_field_unknown_definition_witness :
  Demo.compile (DocumentField base_defaults (inl "User") None) None ∅
  = Demo.Document_get_definitions_and_schema Demo.User None ∅.
Proof.
  apply (document_field_unknown_definition Demo.re_compile_error
    Demo.registered Demo.get_definition_id Demo.module_of
    Demo.Document_get_definitions_and_schema base_defaults (inl "User") None
    Demo.User None ∅ eq_refl).
  intros d Hd. discriminate Hd.
Defined.

Lemma document_field_walk_guard_witness :
  let self : @field Demo.doc :=
    DocumentField base_defaults (inl "User") None in
  Demo.traverse self true [Demo.Group; Demo.User] = ([self], None)
  /\ Demo.traverse self true [Demo.Group] = ([self; Demo.name_field], None).
Proof.
  intros self. split.
  - exact (document_field_walk_guard Demo.registered Demo.module_of
      Demo.Document_walk base_defaults (inl "User") None Demo.User
      [Demo.Group; Demo.User] eq_refl).
  - exact (document_field_walk_guard Demo.registered Demo.module_of
      Demo.Document_walk base_defaults (inl "User") None Demo.User
      [Demo.Group] eq_refl).
Defined.

Lemma walk_primitive_children_witness :
  let children : list (@field Demo.doc) :=
    [Demo.name_field; BooleanField base_defaults] in
  Demo.traverse (OfField AnyOfField base_defaults children) false []
  = (OfField AnyOfField base_defaults children :: children, None).
Proof.
  intros children.
  refine (proj1 (walk_primitive_children Demo.registered Demo.module_of
    Demo.Document_walk AnyOfField base_defaults children PNone PNone false
    None false [] _)).
  repeat constructor.
Defined.

Lemma array_single_item_fragment_witness :
  exists schema : dict,
    Demo.compile
      (ArrayField base_defaults (inl Demo.name_field) PNone PNone false
         (Some (inl true))) None ∅
    = (Ok (1%positive, PDict schema), <[1%positive := ∅]> ∅)
    /\ schema !! "items" = Some (PDict {["type" := PStr "string"]})
    /\ schema !! "additionalItems" = Some (PBool true).
Proof.
  assert (Demo.compile Demo.name_field None ∅
          = (Ok (1%positive, PDict {["type" := PStr "string"]}),
             <[1%positive := ∅]> ∅)) as Hitem by reflexivity.
  exact (array_single_item_fragment Demo.re_compile_error Demo.registered
    Demo.get_definition_id Demo.module_of
    Demo.Document_get_definitions_and_schema base_defaults Demo.name_field
    PNone PNone false (Some true) None ∅ _ _ _ Hitem).
Defined.

Lemma titled_field_compiles :
  Demo.compile Demo.titled_field None ∅
  = (Ok (1%positive,
         PDict {["type" := PStr "string"; "title" := PStr "Mail";
                 "default" := PNone; "format" := PStr "email"]}),
     <[1%positive := ∅]> ∅).
Proof. reflexivity. Qed.

Lemma fragment_title_description_witness :
  exists schema : dict,
    schema !! "title" = Some (PStr "Mail") /\ schema !! "description" = None.
Proof.
  destruct (fragment_title_description Demo.re_compile_error Demo.registered
    Demo.get_definition_id Demo.module_of
    Demo.Document_get_definitions_and_schema Demo.titled_field None ∅ _ _ _
    eq_refl titled_field_compiles) as (schema & _ & Ht & Hd).
  by exists schema.
Defined.

Lemma fragment_enum_default_witness :
  exists schema : dict,
    schema !! "enum" = None /\ schema !! "default" = Some PNone.
Proof.
  destruct (fragment_enum_default Demo.re_compile_error Demo.registered
    Demo.get_definition_id Demo.module_of
    Demo.Document_get_definitions_and_schema Demo.titled_field None ∅ _ _ _
    eq_refl titled_field_compiles) as (schema & _ & He & Hd).
  by exists schema.
Defined.

Lemma fragment_type_keyword_witness :
  exists schema : dict, schema !! "type" = Some (PStr "string").
Proof.
  destruct (fragment_type_keyword Demo.re_compile_error Demo.registered
    Demo.get_definition_id Demo.module_of
    Demo.Document_get_definitions_and_schema Demo.titled_field None ∅ _ _ _
    eq_refl titled_field_compiles) as (schema & _ & Ht).
  by exists schema.
Defined.

Lemma person_field_compiles :
  exists (fragment : pyval) (h' : store),
    Demo.compile Demo.person_field None ∅ = (Ok (1%positive, fragment), h').
Proof. eexists _, _. vm_compute. reflexivity. Qed.

Lemma dict_properties_keys_witness :
  exists (schema m : dict),
    schema !! "properties" = Some (PDict m)
    /\ dom m = {["name"; "mail"]}
    /\ schema !! "patternProperties" = Some (PDict ∅).
Proof.
  destruct person_field_compiles as (fragment & h' & Hrun).
  unfold Demo.compile, Demo.person_field in Hrun.
  destruct (dict_properties_keys Demo.re_compile_error Demo.registered
    Demo.get_definition_id Demo.module_of
    Demo.Document_get_definitions_and_schema _ _ _ _ _ _ _ _ _ _ _ Hrun)
    as (schema & _ & (m & Hm & Hdom) & (m' & Hm' & Hdom')).
  exists schema, m. split; [done|]. split.
  - rewrite Hdom. cbn. set_solver.
  - rewrite Hm'. do 2 f_equal. apply dom_empty_iff_L. by rewrite Hdom'.
Defined.

Lemma dict_additional_properties_policy_witness :
  exists schema : dict,
    schema !! "additionalProperties" = Some (PBool false).
Proof.
  destruct person_field_compiles as (fragment & h' & Hrun).
  unfold Demo.compile, Demo.person_field in Hrun.
  destruct (dict_additional_properties_policy Demo.re_compile_error
    Demo.registered Demo.get_definition_id Demo.module_of
    Demo.Document_get_definitions_and_schema base_defaults
    (Some [("name", Demo.name_field); ("mail", Demo.titled_field)]) (Some [])
    (Some false) PNone PNone None ∅ _ _ _ Hrun) as (schema & _ & Hp).
  by exists schema.
Defined.

Lemma of_field_fragment_length_witness :
  exists (schema : dict) (one_of : list pyval),
    schema !! "anyOf" = Some (PList one_of) /\ length one_of = 2.
Proof.
  assert (exists fragment h',
            Demo.compile
              (OfField AnyOfField base_defaults
                 [Demo.name_field; BooleanField base_defaults]) None ∅
            = (Ok (1%positive, fragment), h')) as (fragment & h' & Hrun).
  { eexists _, _. vm_compute. reflexivity. }
  destruct (of_field_fragment_length Demo.re_compile_error Demo.registered
    Demo.get_definition_id Demo.module_of
    Demo.Document_get_definitions_and_schema _ _ _ _ _ _ _ _ Hrun)
    as (schema & one_of & _ & Hk & Hlen).
  by exists schema, one_of.
Defined.

Lemma person_field_document_free :
  document_free Demo.person_field = true
  /\ patterns_valid Demo.re_compile_error Demo.person_field = true.
Proof. split; reflexivity. Qed.

Lemma document_free_compile_store_witness :
  let h : store := {[1%positive := {["k" := PInt 1]}]} in
  exists (nd : addr) (fragment : pyval) (h' : store),
    Demo.compile Demo.person_field (Some 1%positive) h
    = (Ok (nd, fragment), h')
    /\ h ⊆ h'
    /\ h' !! nd = Some ∅.
Proof.
  intros h.
  destruct (Demo.compile Demo.person_field (Some 1%positive) h)
    as [r h'] eqn:Hrun.
  destruct (document_free_compile_store Demo.re_compile_error Demo.registered
    Demo.get_definition_id Demo.module_of
    Demo.Document_get_definitions_and_schema Demo.person_field
    (Some 1%positive) h h' r (proj1 person_field_document_free) Hrun)
    as [Hsub Hnd].
  vm_compute in Hrun. injection Hrun as <- <-.
  eexists _, _, _. split; [reflexivity|]. split; [exact Hsub|].
  eapply Hnd. reflexivity.
Defined.

Lemma get_schema_document_free_witness :
  exists (fragment : pyval) (h' : store),
    get_schema Demo.re_compile_error Demo.registered Demo.get_definition_id
      Demo.module_of Demo.Document_get_definitions_and_schema
      Demo.person_field ∅
    = (Ok fragment, h')
    /\ Demo.compile Demo.person_field None ∅ = (Ok (1%positive, fragment), h').
Proof.
  destruct person_field_compiles as (fragment & h' & Hrun).
  exists fragment, h'. split; [|exact Hrun].
  exact (get_schema_document_free Demo.re_compile_error Demo.registered
    Demo.get_definition_id Demo.module_of
    Demo.Document_get_definitions_and_schema Demo.person_field ∅ h'
    1%positive fragment (proj1 person_field_document_free) Hrun).
Defined.

Lemma compile_never_raises_witness :
  exists (nd : addr) (schema : dict) (h' : store),
    Demo.compile Demo.account_field None ∅ = (Ok (nd, PDict schema), h').
Proof.
  exact (compile_never_raises Demo.re_compile_error Demo.registered
    Demo.get_definition_id Demo.module_of
    Demo.Document_get_definitions_and_schema Demo.account_field None ∅
    eq_refl eq_refl eq_refl).
Defined.

Lemma document_free_outcome_fixed_witness :
  outcome (Demo.compile Demo.account_field None ∅)
  = outcome
      (Demo.compile Demo.account_field (Some 7%positive)
         {[7%positive := {["app.users.User" := PNone]}]}).
Proof.
  exact (document_free_outcome_fixed Demo.re_compile_error Demo.registered
    Demo.get_definition_id Demo.module_of
    Demo.Document_get_definitions_and_schema Demo.account_field None
    (Some 7%positive) ∅ {[7%positive := {["app.users.User" := PNone]}]}
    eq_refl eq_refl).
Defined.

Lemma string_field_keywords_witness :
  exists schema : dict,
    schema !! "pattern" = None
    /\ schema !! "minLength" = Some (PInt 0)
    /\ schema !! "format" = Some (PStr "uri").
Proof.
  assert (exists fragment h',
            Demo.compile
              (StringField UriField base_defaults (Some EmptyString) (PInt 0)
                 PNone) None ∅
            = (Ok (1%positive, fragment), h')) as (fragment & h' & Hrun).
  { eexists _, _. vm_compute. reflexivity. }
  destruct (string_field_keywords Demo.re_compile_error Demo.registered
    Demo.get_definition_id Demo.module_of
    Demo.Document_get_definitions_and_schema UriField base_defaults
    (Some EmptyString) (PInt 0) PNone None ∅ h' 1%positive fragment Hrun)
    as (schema & _ & _ & _ & Hp & Hmin & _ & Hf).
  by exists schema.
Defined.

Lemma number_field_keywords_witness :
  exists schema : dict,
    schema !! "minimum" = Some (PInt 0)
    /\ schema !! "maximum" = None
    /\ schema !! "exclusiveMaximum" = None.
Proof.
  assert (exists fragment h',
            Demo.compile
              (NumberField IntField base_defaults PNone (PInt 0) false PNone
                 false) None ∅
            = (Ok (1%positive, fragment), h')) as (fragment & h' & Hrun).
  { eexists _, _. vm_compute. reflexivity. }
  destruct (number_field_keywords Demo.re_compile_error Demo.registered
    Demo.get_definition_id Demo.module_of
    Demo.Document_get_definitions_and_schema IntField base_defaults PNone
    (PInt 0) PNone false false None ∅ h' 1%positive fragment Hrun)
    as (schema & _ & _ & _ & _ & Hmin & Hmax & He).
  by exists schema.
Defined.

Lemma not_field_fragment_witness :
  exists schema : dict,
    Demo.compile (NotField base_defaults Demo.name_field) None ∅
    = (Ok (1%positive, PDict schema), <[1%positive := ∅]> ∅)
    /\ schema !! "not" = Some (PDict {["type" := PStr "string"]})
    /\ schema !! "type" = None.
Proof.
  assert (Demo.compile Demo.name_field None ∅
          = (Ok (1%positive, PDict {["type" := PStr "string"]}),
             <[1%positive := ∅]> ∅)) as Hchild by reflexivity.
  exact (not_field_fragment Demo.re_compile_error Demo.registered
    Demo.get_definition_id Demo.module_of
    Demo.Document_get_definitions_and_schema base_defaults Demo.name_field
    None ∅ _ _ _ Hchild).
Defined.

